(** * Keyed locks with background reclamation: packages [grouplock] and [klocker]

    The repository holds two copies of one primitive: [grouplock.GroupLock]
    and [klocker.Mutex].  They agree on [New], [Lock], [Unlock], [cleaner]
    and [Stop]; they differ in [cleanup], where [klocker] takes the entry's
    mutex around the reference-count check and [grouplock] does not.

    The development has three layers:
    - the primitive operations the Go code calls ([sync.Map], [sync.Mutex],
      [atomic.AddInt32], [close]) on an explicit store;
    - the exported functions, written in an outcome monad, one Go statement
      per line;
    - a goroutine machine that executes the same statements one at a time
      under an arbitrary schedule, for the properties that are about
      interleavings. *)

From stdpp Require Import base option list gmap sets strings.
From Stdlib Require Import ZArith Lia.

Local Open Scope Z_scope.

(** ** Outcomes of a Go statement *)

Inductive outcome (A : Type) : Type :=
| Next (a : A)            (* the statement ran *)
| Blocked                 (* the goroutine has to wait (held mutex, empty select) *)
| Fatal (msg : string)    (* run-time panic or fatal error: the process dies *)
| Stuck.                  (* not a Go state: finished goroutine, dangling pointer *)
Arguments Next {A} a.
Arguments Blocked {A}.
Arguments Fatal {A} msg.
Arguments Stuck {A}.

Definition obind {A B} (f : A → outcome B) (m : outcome A) : outcome B :=
  match m with
  | Next a => f a
  | Blocked => Blocked
  | Fatal msg => Fatal msg
  | Stuck => Stuck
  end.

#[global] Instance outcome_ret : MRet outcome := λ A a, Next a.
#[global] Instance outcome_bind : MBind outcome := λ A B f m, obind f m.

Definition of_option {A} (o : option A) : outcome A :=
  match o with Some a => Next a | None => Stuck end.

(** ** Data *)

(** [int32] arithmetic: [atomic.AddInt32] wraps around. *)
Definition min_int32 : Z := - 2 ^ 31.
Definition max_int32 : Z := 2 ^ 31 - 1.
Definition wrap32 (z : Z) : Z := (z + 2 ^ 31) mod 2 ^ 32 - 2 ^ 31.

(** A [*lockItem] is an address in the heap of lock items. *)
Abbreviation ptr := nat.

(** [lockItem]: the mutex (each item owns its own [sync.Mutex], so its state is
    kept in the item; [true] means held) and the reference count. *)
Record lockItem := LockItem {
  mutex : bool;
  count : Z
}.

(** The fields of [GroupLock] / [Mutex], together with the heap the registry's
    pointers refer to.  [cleanKeys] is a [sync.Map] whose values are all
    [struct{}{}], that is, a set.  [closeCh] is [true] once the channel is
    closed.  [interval] is in nanoseconds, as [time.Duration] is. *)
Record state := State {
  heap : list lockItem;
  locks : gmap string ptr;
  cleanKeys : gset string;
  closeCh : bool;
  interval : Z
}.

Definition set_heap (h : list lockItem) (s : state) : state :=
  State h (locks s) (cleanKeys s) (closeCh s) (interval s).
Definition set_locks (m : gmap string ptr) (s : state) : state :=
  State (heap s) m (cleanKeys s) (closeCh s) (interval s).
Definition set_cleanKeys (c : gset string) (s : state) : state :=
  State (heap s) (locks s) c (closeCh s) (interval s).
Definition set_closeCh (b : bool) (s : state) : state :=
  State (heap s) (locks s) (cleanKeys s) b (interval s).
Definition set_interval (i : Z) (s : state) : state :=
  State (heap s) (locks s) (cleanKeys s) (closeCh s) i.

(** The two packages. *)
Inductive package := grouplock | klocker.

(** ** Primitive operations *)

(** [&lockItem{...}]: a fresh item at the end of the heap. *)
Definition alloc (h : list lockItem) (it : lockItem) : list lockItem * ptr :=
  (h ++ [it], length h).

(** [sync.Map.LoadOrStore]: the existing value if there is one, otherwise the
    given one is stored; the flag says whether it was loaded. *)
Definition LoadOrStore (m : gmap string ptr) (key : string) (v : ptr)
  : gmap string ptr * ptr * bool :=
  match m !! key with
  | Some a => (m, a, true)
  | None => (<[key := v]> m, v, false)
  end.

(** [atomic.AddInt32(&p.count, delta)] returns the new value. *)
Definition AddInt32 (h : list lockItem) (p : ptr) (delta : Z)
  : option (list lockItem * Z) :=
  match h !! p with
  | Some it =>
      let n := wrap32 (count it + delta) in
      Some (<[p := LockItem (mutex it) n]> h, n)
  | None => None
  end.

(** [atomic.LoadInt32(&p.count)]. *)
Definition LoadInt32 (h : list lockItem) (p : ptr) : option Z :=
  count <$> h !! p.

(** [p.mutex.Lock()]: waits while the mutex is held. *)
Definition mutex_Lock (h : list lockItem) (p : ptr) : outcome (list lockItem) :=
  match h !! p with
  | Some it =>
      if mutex it then Blocked
      else Next (<[p := LockItem true (count it)]> h)
  | None => Stuck
  end.

(** [p.mutex.Unlock()]: unlocking a mutex that is not held is a fatal error
    of the Go run time. *)
Definition mutex_Unlock (h : list lockItem) (p : ptr) : outcome (list lockItem) :=
  match h !! p with
  | Some it =>
      if mutex it then Next (<[p := LockItem false (count it)]> h)
      else Fatal "sync: unlock of unlocked mutex"%string
  | None => Stuck
  end.

(** [close(ch)]: closing a closed channel panics. *)
Definition close (closed : bool) : outcome bool :=
  if closed then Fatal "close of closed channel"%string else Next true.

(** ** The exported functions, run without interruption *)

Definition defaultCleanInterval : Z := 30 * 60 * 1000000000.

(** [WithCleanInterval] / [WithInterval]. *)
Definition WithCleanInterval (i : Z) (s : state) : state :=
  if 0 <? i then set_interval i s else s.

(** [New]: the state the constructor builds before it starts the cleaner. *)
Definition New (opts : list (state → state)) : state :=
  foldl (λ s opt, opt s) (State [] ∅ ∅ false defaultCleanInterval) opts.

(** [Lock].  The composite literal is evaluated before [LoadOrStore] is
    called, so an item is allocated on every call and dropped when the key
    already has one. *)
Definition Lock (s : state) (key : string) : outcome state :=
  let '(h0, fresh) := alloc (heap s) (LockItem false 0) in
  let '(m, lockData, _) := LoadOrStore (locks s) key fresh in
  '(h1, _) ← of_option (AddInt32 h0 lockData 1);
  h2 ← mutex_Lock h1 lockData;
  Next (set_locks m (set_heap h2 s)).

(** [Unlock]. *)
Definition Unlock (s : state) (key : string) : outcome state :=
  match locks s !! key with
  | Some lockData =>
      h1 ← mutex_Unlock (heap s) lockData;
      '(h2, newCount) ← of_option (AddInt32 h1 lockData (-1));
      if newCount <=? 0
      then Next (set_cleanKeys ({[key]} ∪ cleanKeys s) (set_heap h2 s))
      else Next (set_heap h2 s)
  | None => Next s
  end.

(** [Stop]. *)
Definition Stop (s : state) : outcome state :=
  c ← close (closeCh s);
  Next (set_closeCh c s).

(** The body of the function given to [cleanKeys.Range] in [cleanup], for one
    key; [keysToRemove] is threaded through. *)
Definition visit (pkg : package) (s : state) (keysToRemove : list string)
    (k : string) : outcome (state * list string) :=
  match locks s !! k with
  | Some lockData =>
      h1 ← match pkg with
           | klocker => mutex_Lock (heap s) lockData
           | grouplock => Next (heap s)
           end;
      c ← of_option (LoadInt32 h1 lockData);
      let '(m, rm) :=
        if c <=? 0 then (delete k (locks s), keysToRemove ++ [k])
        else (locks s, keysToRemove) in
      h2 ← match pkg with
           | klocker => mutex_Unlock h1 lockData
           | grouplock => Next h1
           end;
      Next (set_locks m (set_heap h2 s), rm)
  | None => Next (s, keysToRemove)
  end.

(** [cleanKeys.Range(f)] over the keys in the order [ks]. *)
Fixpoint Range (pkg : package) (ks : list string) (s : state)
    (keysToRemove : list string) : outcome (state * list string) :=
  match ks with
  | [] => Next (s, keysToRemove)
  | k :: ks' =>
      '(s', rm) ← visit pkg s keysToRemove k;
      Range pkg ks' s' rm
  end.

(** The closing loop of [cleanup]: [cleanKeys.Delete(key)] for every
    collected key. *)
Definition drop_keys (c : gset string) (keysToRemove : list string) : gset string :=
  foldl (λ acc key, acc ∖ {[key]}) c keysToRemove.

(** [cleanup].  [sync.Map.Range] visits the keys in an unspecified order;
    [elements] fixes one, and [cleanup_order] below shows the result does
    not depend on it. *)
Definition cleanup_in (pkg : package) (ks : list string) (s : state) : outcome state :=
  '(s', keysToRemove) ← Range pkg ks s [];
  Next (set_cleanKeys (drop_keys (cleanKeys s') keysToRemove) s').

Definition cleanup (pkg : package) (s : state) : outcome state :=
  cleanup_in pkg (elements (cleanKeys s)) s.

(** ** The goroutine machine *)

(** A caller goroutine inside [Lock], [Unlock] or [Stop]: the statement it
    executes next (numbered by its line in the source, the same in both
    packages for [Lock] and [Unlock]) and its local variables. *)
Inductive frame :=
| Lock_59 (key : string)                    (* item, _ := gl.locks.LoadOrStore(key, &lockItem{...}) *)
| Lock_66 (key : string) (lockData : ptr)   (* atomic.AddInt32(&lockData.count, 1) *)
| Lock_68 (key : string) (lockData : ptr)   (* lockData.mutex.Lock() *)
| Unlock_74 (key : string)                  (* if item, ok := gl.locks.Load(key); ok *)
| Unlock_77 (key : string) (lockData : ptr) (* lockData.mutex.Unlock() *)
| Unlock_80 (key : string) (lockData : ptr) (* newCount := atomic.AddInt32(&lockData.count, -1) *)
| Unlock_82 (key : string) (newCount : Z)   (* if newCount <= 0 { gl.cleanKeys.Store(key, struct{}{}) } *)
| Stop_close                                (* close(gl.closeCh) *)
| Return.                                   (* the call has returned *)

Definition caller_step (s : state) (f : frame) : outcome (state * frame) :=
  match f with
  | Lock_59 key =>
      let '(h0, fresh) := alloc (heap s) (LockItem false 0) in
      let '(m, lockData, _) := LoadOrStore (locks s) key fresh in
      Next (set_locks m (set_heap h0 s), Lock_66 key lockData)
  | Lock_66 key lockData =>
      '(h1, _) ← of_option (AddInt32 (heap s) lockData 1);
      Next (set_heap h1 s, Lock_68 key lockData)
  | Lock_68 key lockData =>
      h2 ← mutex_Lock (heap s) lockData;
      Next (set_heap h2 s, Return)
  | Unlock_74 key =>
      match locks s !! key with
      | Some lockData => Next (s, Unlock_77 key lockData)
      | None => Next (s, Return)
      end
  | Unlock_77 key lockData =>
      h1 ← mutex_Unlock (heap s) lockData;
      Next (set_heap h1 s, Unlock_80 key lockData)
  | Unlock_80 key lockData =>
      '(h2, newCount) ← of_option (AddInt32 (heap s) lockData (-1));
      Next (set_heap h2 s, Unlock_82 key newCount)
  | Unlock_82 key newCount =>
      if newCount <=? 0
      then Next (set_cleanKeys ({[key]} ∪ cleanKeys s) s, Return)
      else Next (s, Return)
  | Stop_close =>
      c ← close (closeCh s);
      Next (set_closeCh c s, Return)
  | Return => Stuck
  end.

(** The cleaner goroutine: [cleaner] and, inside it, [cleanup].  [todo] is
    what [Range] has still to visit, [keysToRemove] the slice of the same
    name. *)
Inductive cframe :=
| Select                          (* cleaner: select { case <-ticker.C / case <-gl.closeCh } *)
| CallCleanup                     (* the ticker case was taken: gl.cleanup(); Range starts *)
| RangeNext (todo keysToRemove : list string)
                                  (* Range calls f on the next key: gl.locks.Load(k) *)
| MutexLock (k : string) (lockData : ptr) (todo keysToRemove : list string)
                                  (* klocker only: lockData.mutex.Lock() *)
| LoadCount (k : string) (lockData : ptr) (todo keysToRemove : list string)
                                  (* if atomic.LoadInt32(&lockData.count) <= 0 *)
| DeleteKey (k : string) (lockData : ptr) (todo keysToRemove : list string)
                                  (* gl.locks.Delete(k); keysToRemove = append(keysToRemove, k) *)
| MutexUnlock (k : string) (lockData : ptr) (todo keysToRemove : list string)
                                  (* klocker only: lockData.mutex.Unlock() *)
| DropKeys (keysToRemove : list string)
                                  (* for _, key := range keysToRemove { gl.cleanKeys.Delete(key) } *)
| Exit.                           (* case <-gl.closeCh: return *)

(** Where [f] goes once the count has been dealt with. *)
Definition after_check (pkg : package) (k : string) (lockData : ptr)
    (todo keysToRemove : list string) : cframe :=
  match pkg with
  | klocker => MutexUnlock k lockData todo keysToRemove
  | grouplock => RangeNext todo keysToRemove
  end.

(** One statement of the cleaner.  [tick] tells whether [ticker.C] holds a
    tick; when both cases of the select are ready Go picks one at random,
    which [pick] decides ([true]: the ticker).  [Range] enumerates the keys
    that are in [cleanKeys] when it starts; [sync.Map] leaves open whether a
    key stored during the enumeration is visited, and here it is not. *)
Definition cleaner_step (pkg : package) (pick : bool) (s : state) (tick : bool)
    (f : cframe) : outcome (state * bool * cframe) :=
  match f with
  | Select =>
      match tick, closeCh s with
      | true, true => if pick then Next (s, false, CallCleanup) else Next (s, tick, Exit)
      | true, false => Next (s, false, CallCleanup)
      | false, true => Next (s, tick, Exit)
      | false, false => Blocked
      end
  | CallCleanup => Next (s, tick, RangeNext (elements (cleanKeys s)) [])
  | RangeNext [] rm => Next (s, tick, DropKeys rm)
  | RangeNext (k :: todo) rm =>
      match locks s !! k with
      | Some lockData =>
          match pkg with
          | klocker => Next (s, tick, MutexLock k lockData todo rm)
          | grouplock => Next (s, tick, LoadCount k lockData todo rm)
          end
      | None => Next (s, tick, RangeNext todo rm)
      end
  | MutexLock k lockData todo rm =>
      match pkg with
      | klocker =>
          h ← mutex_Lock (heap s) lockData;
          Next (set_heap h s, tick, LoadCount k lockData todo rm)
      | grouplock => Stuck      (* no such statement in grouplock.go *)
      end
  | LoadCount k lockData todo rm =>
      c ← of_option (LoadInt32 (heap s) lockData);
      if c <=? 0 then Next (s, tick, DeleteKey k lockData todo rm)
      else Next (s, tick, after_check pkg k lockData todo rm)
  | DeleteKey k lockData todo rm =>
      Next (set_locks (delete k (locks s)) s, tick,
            after_check pkg k lockData todo (rm ++ [k]))
  | MutexUnlock k lockData todo rm =>
      match pkg with
      | klocker =>
          h ← mutex_Unlock (heap s) lockData;
          Next (set_heap h s, tick, RangeNext todo rm)
      | grouplock => Stuck      (* no such statement in grouplock.go *)
      end
  | DropKeys [] => Next (s, tick, Select)
  | DropKeys (key :: rm) =>
      Next (set_cleanKeys (cleanKeys s ∖ {[key]}) s, tick, DropKeys rm)
  | Exit => Stuck
  end.

(** The whole program: the shared state, the ticker's channel, the caller
    goroutines (by number) and the cleaner.  [holders] is specification
    state: [(g, k)] is in it from the moment goroutine [g] returns from
    [Lock(k)] until it calls [Unlock(k)]. *)
Record world := World {
  shared : state;
  tickerC : bool;
  callers : gmap nat frame;
  cleaner : cframe;
  holders : gset (nat * string)
}.

Inductive call := CallLock (key : string) | CallUnlock (key : string) | CallStop.

Definition entry (c : call) : frame :=
  match c with
  | CallLock key => Lock_59 key
  | CallUnlock key => Unlock_74 key
  | CallStop => Stop_close
  end.

(** What the scheduler and the environment can do. *)
Inductive event :=
| Invoke (g : nat) (c : call)    (* goroutine [g], not inside a call, makes call [c] *)
| Run (g : nat)                  (* goroutine [g] executes its next statement *)
| Tick                           (* the ticker fires (its channel keeps one tick) *)
| Sweep (pick : bool).           (* the cleaner executes its next statement *)

Definition invoke (w : world) (g : nat) (c : call) : world :=
  World (shared w) (tickerC w) (<[g := entry c]> (callers w)) (cleaner w)
        (match c with
         | CallUnlock key => holders w ∖ {[(g, key)]}
         | _ => holders w
         end).

Definition step (pkg : package) (w : world) (e : event) : outcome world :=
  match e with
  | Invoke g c =>
      match callers w !! g with
      | None | Some Return => Next (invoke w g c)
      | Some _ => Stuck
      end
  | Run g =>
      f ← of_option (callers w !! g);
      '(s', f') ← caller_step (shared w) f;
      Next (World s' (tickerC w) (<[g := f']> (callers w)) (cleaner w)
                  (match f with
                   | Lock_68 key _ => {[(g, key)]} ∪ holders w
                   | _ => holders w
                   end))
  | Tick =>
      (* [defer ticker.Stop()]: no ticks once the cleaner has returned *)
      match cleaner w with
      | Exit => Next w
      | _ => Next (World (shared w) true (callers w) (cleaner w) (holders w))
      end
  | Sweep pick =>
      '(s', t', f') ← cleaner_step pkg pick (shared w) (tickerC w) (cleaner w);
      Next (World s' t' (callers w) f' (holders w))
  end.

Fixpoint run (pkg : package) (w : world) (es : list event) : outcome world :=
  match es with
  | [] => Next w
  | e :: es' => w' ← step pkg w e; run pkg w' es'
  end.

(** [New] followed by [go gl.cleaner()]. *)
Definition start (s : state) : world := World s false ∅ Select ∅.

(** Goroutine [g] is between a completed [Lock(k)] and its [Unlock(k)]. *)
Definition in_critical (w : world) (g : nat) (k : string) : Prop :=
  (g, k) ∈ holders w.

(** One whole call of goroutine [g], run without interruption. *)
Definition do_call (g : nat) (c : call) (n : nat) : list event :=
  Invoke g c :: replicate n (Run g).
Definition do_Lock (g : nat) (key : string) : list event := do_call g (CallLock key) 3.
Definition do_Unlock (g : nat) (key : string) : list event := do_call g (CallUnlock key) 4.
Definition do_Stop (g : nat) : list event := do_call g CallStop 1.

(** A caller run alone from frame [f] until its call returns. *)
Fixpoint exec (n : nat) (s : state) (f : frame) : outcome state :=
  match f, n with
  | Return, _ => Next s
  | _, O => Stuck
  | _, S n' => '(s', f') ← caller_step s f; exec n' s' f'
  end.

(** The cleaner run alone from frame [f] until it is back at its select. *)
Fixpoint pass (pkg : package) (n : nat) (s : state) (f : cframe) : outcome state :=
  match f, n with
  | Select, _ => Next s
  | _, O => Stuck
  | _, S n' =>
      '(s', _, f') ← cleaner_step pkg true s false f;
      pass pkg n' s' f'
  end.

(** ** Predicates used in the statements *)

(** A frame of [Lock]. *)
Definition lock_frame (f : frame) : Prop :=
  match f with
  | Lock_59 _ | Lock_66 _ _ | Lock_68 _ _ => True
  | _ => False
  end.

(** The item with its mutex set to [b] / its count set to [c]. *)
Definition with_mutex (b : bool) (it : lockItem) : lockItem := LockItem b (count it).
Definition with_count (c : Z) (it : lockItem) : lockItem := LockItem (mutex it) c.

(** Write [it] at [p] in the heap of [s]. *)
Definition poke (p : ptr) (it : lockItem) (s : state) : state :=
  set_heap (<[p := it]> (heap s)) s.

(** [k] has an entry whose count is at most zero: what [cleanup] deletes. *)
Definition idle (s : state) (k : string) : bool :=
  match locks s !! k with
  | Some p =>
      match heap s !! p with
      | Some it => count it <=? 0
      | None => false
      end
  | None => false
  end.

(** Every pending key that has an entry points into the heap and, for
    [klocker], its mutex is free: a cleanup pass started now does not have
    to wait. *)
Definition sweepable (pkg : package) (s : state) (ks : list string) : Prop :=
  ∀ k p, k ∈ ks → locks s !! k = Some p →
    ∃ it, heap s !! p = Some it ∧ (pkg = klocker → mutex it = false).

(** The key an [Unlock] frame works on. *)
Definition unlock_key (f : frame) : option string :=
  match f with
  | Unlock_74 k | Unlock_77 k _ | Unlock_80 k _ | Unlock_82 k _ => Some k
  | _ => None
  end.

(** The keys the cleaner has in its local variables. *)
Definition cframe_keys (f : cframe) : list string :=
  match f with
  | RangeNext todo rm => todo ++ rm
  | MutexLock k _ todo rm | LoadCount k _ todo rm
  | DeleteKey k _ todo rm | MutexUnlock k _ todo rm => k :: todo ++ rm
  | DropKeys rm => rm
  | Select | CallCleanup | Exit => []
  end.

(** A goroutine in frame [f] has got [p] from [LoadOrStore(k, ...)]. *)
Definition observes (f : frame) (k : string) (p : ptr) : Prop :=
  f = Lock_66 k p ∨ f = Lock_68 k p.

(** No [Unlock(k)] has left a trace: [k] is not pending, no goroutine is
    inside [Unlock(k)] and the cleaner is not working on [k]. *)
Definition never_unlocked (k : string) (w : world) : Prop :=
  (k ∉ cleanKeys (shared w))
  ∧ (∀ g f, callers w !! g = Some f → unlock_key f ≠ Some k)
  ∧ (k ∉ cframe_keys (cleaner w)).

(** Every goroutine that has got an entry for [k] has got the registry's. *)
Definition same_entry (k : string) (w : world) : Prop :=
  ∀ g f p, callers w !! g = Some f → observes f k p →
           locks (shared w) !! k = Some p.

(** What the schedules without [Unlock(k)] preserve. *)
Definition entry_invariant (k : string) (w : world) : Prop :=
  never_unlocked k w ∧ same_entry k w.

(** [k] is new: no entry, no trace of an [Unlock(k)], and no [Lock(k)] past
    its first statement. *)
Definition first_time (k : string) (w : world) : Prop :=
  locks (shared w) !! k = None
  ∧ never_unlocked k w
  ∧ (∀ g f p, callers w !! g = Some f → ¬ observes f k p).

(** A schedule without calls of [Unlock(k)]. *)
Definition no_unlock (k : string) (es : list event) : Prop :=
  Forall (λ e, ∀ g, e ≠ Invoke g (CallUnlock k)) es.

(** The entry a frame holds a pointer to, with the key it got it for. *)
Definition frame_entry (f : frame) : option (string * ptr) :=
  match f with
  | Lock_66 k p | Lock_68 k p | Unlock_77 k p | Unlock_80 k p => Some (k, p)
  | _ => None
  end.

(** The frames of [Unlock(k)] before the mutex is released. *)
Definition releasing (f : frame) (k : string) : Prop :=
  match f with
  | Unlock_74 k' | Unlock_77 k' _ => k' = k
  | _ => False
  end.

(** Goroutine [g] has the lock of [k]: it is in the critical region, or it
    has called [Unlock(k)] from there and has not yet released the mutex. *)
Definition owner (w : world) (g : nat) (k : string) : Prop :=
  (g, k) ∈ holders w ∨ ∃ f, callers w !! g = Some f ∧ releasing f k.

(** The callers keep to the contract of [Unlock] ([Unlock(k)] is called from
    the critical region of [k] only) and the cleaner does not run. *)
Definition allowed (w : world) (e : event) : Prop :=
  match e with
  | Invoke g (CallUnlock k) => (g, k) ∈ holders w
  | Sweep _ => False
  | _ => True
  end.

Fixpoint allowed_run (pkg : package) (w : world) (es : list event) : Prop :=
  match es with
  | [] => True
  | e :: es' =>
      allowed w e
      ∧ match step pkg w e with
        | Next w' => allowed_run pkg w' es'
        | _ => True
        end
  end.

(** What holds of the locks as long as the cleaner does not run. *)
Record lock_invariant (w : world) : Prop := LockInvariant {
  li_valid : ∀ k p, locks (shared w) !! k = Some p →
                    (p < length (heap (shared w)))%nat;
  li_inj : ∀ k1 k2 p, locks (shared w) !! k1 = Some p →
                      locks (shared w) !! k2 = Some p → k1 = k2;
  li_frames : ∀ g f k p, callers w !! g = Some f → frame_entry f = Some (k, p) →
                         locks (shared w) !! k = Some p;
  li_held : ∀ g k, owner w g k →
                   ∃ p it, locks (shared w) !! k = Some p
                           ∧ heap (shared w) !! p = Some it ∧ mutex it = true;
  li_unique : ∀ g1 g2 k, owner w g1 k → owner w g2 k → g1 = g2;
  li_excl : ∀ g f k, (g, k) ∈ holders w → callers w !! g = Some f → ¬ releasing f k
}.

(** Event [e], in world [w], is a [LoadOrStore(k, ...)] that stores: it
    creates an entry for [k]. *)
Definition creates (k : string) (w : world) (e : event) : bool :=
  match e with
  | Run g =>
      match callers w !! g with
      | Some (Lock_59 key) =>
          bool_decide (key = k) && bool_decide (locks (shared w) !! k = None)
      | _ => false
      end
  | _ => false
  end.

(** The number of entries created for [k] along a schedule. *)
Fixpoint creations (pkg : package) (k : string) (w : world) (es : list event) : nat :=
  match es with
  | [] => 0
  | e :: es' =>
      ((if creates k w e then 1 else 0)
       + match step pkg w e with
         | Next w' => creations pkg k w' es'
         | _ => 0
         end)%nat
  end.

(** ** Concrete states and schedules used below *)

Definition ms : Z := 1000000.

(** A handle on which one [Stop] has completed. *)
Definition stopped : state := set_closeCh true (New []).

(** Key ["a"] held once: entry at address 0, count 1, mutex held. *)
Definition held_a : state := State [LockItem true 1] {[ "a"%string := 0%nat ]} ∅ false defaultCleanInterval.

(** Key ["a"] pending with an entry whose count is back to 1 and whose
    mutex is free: a second [Lock("a")] has executed lines 59 and 66 and
    not yet line 68. *)
Definition pending_in_use : state :=
  State [LockItem false 1; LockItem false 0] {[ "a"%string := 0%nat ]} {[ "a"%string ]} false defaultCleanInterval.

(** Key ["a"] pending without an entry. *)
Definition pending_only : state :=
  State [] ∅ {[ "a"%string ]} false defaultCleanInterval.

(** The cleaner's statements for one tick when exactly one key is pending and
    its entry is idle: select, call, lookup, (mutex taken,) count read, entry
    deleted, (mutex released,) end of [Range], key dropped, end of the loop. *)
Definition one_key_pass (pkg : package) : list event :=
  replicate (match pkg with klocker => 10 | grouplock => 8 end)%nat (Sweep true).

(** A schedule in which the cleaner deletes the entry of ["a"] between line 59
    and line 66 of a [Lock("a")]. *)
Definition race (pkg : package) : list event :=
  do_Lock 0 "a" ++ do_Unlock 0 "a"          (* "a": idle entry, pending *)
  ++ [Invoke 1 (CallLock "a"); Run 1]       (* goroutine 1, line 59: gets that entry *)
  ++ [Tick] ++ one_key_pass pkg             (* the cleaner deletes it *)
  ++ [Run 1; Run 1]                         (* goroutine 1, lines 66 and 68: takes its mutex *)
  ++ do_Lock 2 "a".                         (* goroutine 2: new entry, takes its mutex *)

(** A schedule that brings the [klocker] cleaner to the mutex of a key that
    is held. *)
Definition sweep_meets_holder : list event :=
  do_Lock 0 "a" ++ do_Unlock 0 "a"          (* "a" is pending *)
  ++ do_Lock 0 "a"                          (* and held again *)
  ++ [Tick; Sweep true; Sweep true; Sweep true].
                                            (* select, call, lookup: at mutex.Lock() *)

(** [Lock("a")], then a tick that the cleaner receives, then [Stop()]. *)
Definition stop_after_tick : list event :=
  do_Lock 0 "a" ++ [Tick; Sweep true] ++ do_Stop 0.

(** [Lock("a")], then a tick that stays in the channel, then [Stop()]. *)
Definition stop_with_tick_waiting : list event :=
  do_Lock 0 "a" ++ [Tick] ++ do_Stop 0.

(** [Unlock("a")], then [n] statements of the cleaner. *)
Definition unlock_then_sweep (n : nat) : list event :=
  do_Unlock 0 "a" ++ replicate n (Sweep true).

(** After the schedule [before], [Stop] has returned and ["a"] has its entry;
    after [Unlock("a")] and [n] more statements of the cleaner, the pass is
    over and the entry is gone. *)
Definition reclaimed_after_Stop (pkg : package) (before : list event) (n : nat) : Prop :=
  ∃ w1 w2,
    run pkg (start (New [WithCleanInterval (100 * ms)])) before = Next w1
    ∧ closeCh (shared w1) = true
    ∧ callers w1 !! 0%nat = Some Return
    ∧ locks (shared w1) !! "a"%string = Some 0%nat
    ∧ run pkg w1 (unlock_then_sweep n) = Next w2
    ∧ cleaner w2 = Select
    ∧ locks (shared w2) !! "a"%string = None.

(** Three goroutines call [Lock("a")] on a new handle; two have executed line
    59 when the third does; a tick and a cleaner pass fall in between. *)
Definition three_lockers_1 : list event :=
  [Invoke 1 (CallLock "a"); Invoke 2 (CallLock "a"); Invoke 3 (CallLock "a");
   Run 2; Tick; Sweep true; Run 1].
Definition three_lockers_2 : list event :=
  [Sweep true; Run 3; Run 1; Sweep true; Run 2; Run 3; Run 1; Sweep true].

(** The scenarios of the repository's tests.  [second] is one second. *)
Definition second : Z := 1000 * ms.

(** [TestGroupLock_LockCleanupAfterUnlock]. *)
Definition test_LockCleanupAfterUnlock (pkg : package) : list event :=
  do_Lock 0 "user1" ++ do_Unlock 0 "user1" ++ [Tick] ++ one_key_pass pkg.

(** [TestGroupLock_StopCleaner]; the cleaner takes the stop case before the
    key is unlocked. *)
Definition test_StopCleaner : list event :=
  do_Lock 0 "user1" ++ do_Stop 0 ++ [Sweep false] ++ do_Unlock 0 "user1".

(** [TestGroupLock_MultipleLocksOnSameKey], up to the point where the second
    goroutine waits for the first. *)
Definition test_MultipleLocks_1 : list event :=
  do_Lock 1 "user1" ++ [Invoke 2 (CallLock "user1"); Run 2; Run 2].
Definition test_MultipleLocks_2 (pkg : package) : list event :=
  do_Unlock 1 "user1" ++ [Run 2] ++ do_Unlock 2 "user1" ++ [Tick] ++ one_key_pass pkg.

(** Three goroutines call [Lock("a")] on a new handle.  The first completes
    its call and the second executes line 59 before the first unlocks; a
    cleaner pass follows; only then does the third execute line 59. *)
Definition first_calls_race (pkg : package) : list event :=
  [Invoke 1 (CallLock "a"); Invoke 2 (CallLock "a"); Invoke 3 (CallLock "a")]
  ++ [Run 1; Run 1; Run 1]                  (* goroutine 1: lines 59, 66, 68 *)
  ++ [Run 2]                                (* goroutine 2, line 59: gets that entry *)
  ++ do_Unlock 1 "a"                        (* goroutine 1 unlocks: count 0, pending *)
  ++ [Tick] ++ one_key_pass pkg             (* the cleaner deletes the entry *)
  ++ [Run 3].                               (* goroutine 3, line 59: stores a new one *)

(** The second and the third goroutine complete their calls. *)
Definition first_calls_complete : list event :=
  [Run 2; Run 2; Run 3; Run 3].

(** * Properties *)

(** ** Arithmetic and heap lemmas *)

Lemma wrap32_id (z : Z) : min_int32 ≤ z ≤ max_int32 → wrap32 z = z.
Proof.
  unfold min_int32, max_int32, wrap32. intros H.
  rewrite Z.mod_small; lia.
Qed.

Lemma wrap32_range (z : Z) : min_int32 ≤ wrap32 z ≤ max_int32.
Proof.
  unfold min_int32, max_int32, wrap32.
  pose proof (Z.mod_pos_bound (z + 2 ^ 31) (2 ^ 32) ltac:(lia)). lia.
Qed.

Lemma AddInt32_Some (h : list lockItem) (p : ptr) (it : lockItem) (d : Z) :
  h !! p = Some it →
  AddInt32 h p d = Some (<[p := with_count (wrap32 (count it + d)) it]> h, wrap32 (count it + d)).
Proof. intros H. unfold AddInt32. by rewrite H. Qed.

Lemma mutex_Lock_Some (h : list lockItem) (p : ptr) (it : lockItem) :
  h !! p = Some it →
  mutex_Lock h p = if mutex it then Blocked else Next (<[p := with_mutex true it]> h).
Proof. intros H. unfold mutex_Lock. by rewrite H. Qed.

Lemma mutex_Unlock_Some (h : list lockItem) (p : ptr) (it : lockItem) :
  h !! p = Some it →
  mutex_Unlock h p =
    if mutex it then Next (<[p := with_mutex false it]> h)
    else Fatal "sync: unlock of unlocked mutex"%string.
Proof. intros H. unfold mutex_Unlock. by rewrite H. Qed.

Lemma lookup_poke (h : list lockItem) (p : ptr) (it x : lockItem) :
  h !! p = Some it → <[p := x]> h !! p = Some x.
Proof. intros H. apply list_lookup_insert_eq. by eapply lookup_lt_Some. Qed.

(** Taking and releasing a free mutex leaves the heap as it was. *)
Lemma lock_unlock_id (h : list lockItem) (p : ptr) (it : lockItem) :
  h !! p = Some it → mutex it = false →
  <[p := with_mutex false (with_mutex true it)]> (<[p := with_mutex true it]> h) = h.
Proof.
  intros H Hm. rewrite list_insert_insert_eq.
  apply list_insert_id. destruct it as [m c]; simpl in *. by subst.
Qed.

(** ** [Lock] and [Unlock] are their statements run in sequence *)

Lemma exec_Lock (s : state) (key : string) : exec 3 s (Lock_59 key) = Lock s key.
Proof.
  unfold Lock. simpl. unfold LoadOrStore.
  destruct (locks s !! key) as [q|]; simpl;
    (destruct (AddInt32 _ _ 1) as [[h1 c]|]; simpl; [|done]);
    destruct (mutex_Lock h1 _); done.
Qed.

Lemma exec_Unlock (s : state) (key : string) : exec 4 s (Unlock_74 key) = Unlock s key.
Proof.
  unfold Unlock. simpl.
  destruct (locks s !! key) as [q|]; simpl; [|done].
  destruct (mutex_Unlock (heap s) q) as [h1| | |]; simpl; try done.
  destruct (AddInt32 h1 q (-1)) as [[h2 c]|]; simpl; [|done].
  destruct (c <=? 0); done.
Qed.

Lemma exec_Stop (s : state) : exec 1 s Stop_close = Stop s.
Proof. unfold Stop. simpl. destruct (close (closeCh s)); done. Qed.

(** ** [Stop] *)

(** C3, as the code has it: [Stop] succeeds exactly when the channel is still
    open, and then closes it and changes nothing else; on a handle that was
    already stopped it panics with "close of closed channel", both as a
    function and as a statement of the goroutine machine. *)
Theorem C3_Stop_only_once (s : state) :
  Stop s = (if closeCh s then Fatal "close of closed channel"%string
            else Next (set_closeCh true s))
  ∧ caller_step s Stop_close =
      (if closeCh s then Fatal "close of closed channel"%string
       else Next (set_closeCh true s, Return)).
Proof. unfold Stop, caller_step, close. by destruct (closeCh s). Qed.

(** C3 as stated fails: the second [Stop()] on a fresh handle is not a no-op,
    it panics. *)
Lemma C3_second_Stop_panics :
  Stop (New []) = Next stopped
  ∧ Stop stopped = Fatal "close of closed channel"%string
  ∧ ¬ (∃ s, Stop stopped = Next s).
Proof.
  split; [reflexivity|]. split; [reflexivity|].
  intros [s Hs]. vm_compute in Hs. discriminate.
Qed.

(** ** [Unlock] *)

(** C6: [Unlock] on a key that has no entry returns at once and leaves the
    whole state (registry, pending set, heap, channel) as it was; the
    goroutine executes the lookup and nothing else. *)
Theorem C6_Unlock_unknown_key (s : state) (key : string) :
  locks s !! key = None →
  Unlock s key = Next s ∧ caller_step s (Unlock_74 key) = Next (s, Return).
Proof. intros H. unfold Unlock, caller_step. by rewrite H. Qed.

Lemma C6_Unlock_unknown_key_witness :
  Unlock (New []) "a" = Next (New [])
  ∧ caller_step (New []) (Unlock_74 "a") = Next (New [], Return).
Proof. apply (C6_Unlock_unknown_key (New []) "a"). reflexivity. Defined.

(** C7: [Unlock] on a key whose entry is present and held executes, in this
    order: the lookup; the release of the mutex, with the count untouched;
    the decrement of the count by one; the insertion of the key into the
    pending set exactly when the new count is at most zero.  The count is an
    [int32] above its minimum, where the decrement does not wrap. *)
Theorem C7_Unlock_release_then_decrement
    (s : state) (key : string) (p : ptr) (it : lockItem) :
  locks s !! key = Some p →
  heap s !! p = Some it →
  mutex it = true →
  min_int32 < count it ≤ max_int32 →
  let s1 := poke p (LockItem false (count it)) s in
  let s2 := poke p (LockItem false (count it - 1)) s in
  let s3 := if count it - 1 <=? 0
            then set_cleanKeys ({[key]} ∪ cleanKeys s) s2 else s2 in
  caller_step s (Unlock_74 key) = Next (s, Unlock_77 key p)
  ∧ caller_step s (Unlock_77 key p) = Next (s1, Unlock_80 key p)
  ∧ caller_step s1 (Unlock_80 key p) = Next (s2, Unlock_82 key (count it - 1))
  ∧ caller_step s2 (Unlock_82 key (count it - 1)) = Next (s3, Return)
  ∧ Unlock s key = Next s3
  ∧ locks s3 = locks s
  ∧ cleanKeys s3 = (if count it - 1 <=? 0 then {[key]} ∪ cleanKeys s else cleanKeys s).
Proof.
  intros Hk Hp Hm Hc s1 s2 s3.
  assert (Hw : wrap32 (count it + -1) = count it - 1).
  { apply wrap32_id. unfold min_int32, max_int32 in *. lia. }
  assert (H1 : caller_step s (Unlock_77 key p) = Next (s1, Unlock_80 key p)).
  { simpl. rewrite (mutex_Unlock_Some _ _ _ Hp), Hm. done. }
  assert (H2 : caller_step s1 (Unlock_80 key p)
               = Next (s2, Unlock_82 key (count it - 1))).
  { simpl. rewrite (AddInt32_Some _ _ (LockItem false (count it))); last first.
    { by eapply lookup_poke. }
    simpl. rewrite Hw. unfold with_count. simpl.
    rewrite list_insert_insert_eq. done. }
  assert (H3 : caller_step s2 (Unlock_82 key (count it - 1)) = Next (s3, Return)).
  { simpl. subst s3. by destruct (count it - 1 <=? 0). }
  split_and!; try done.
  - simpl. by rewrite Hk.
  - rewrite <- exec_Unlock. simpl. rewrite Hk. simpl.
    simpl in H1. rewrite H1. simpl.
    simpl in H2. rewrite H2. simpl.
    simpl in H3. rewrite H3. done.
  - subst s3. by destruct (count it - 1 <=? 0).
  - subst s3. by destruct (count it - 1 <=? 0).
Qed.

Lemma C7_Unlock_release_then_decrement_witness :
  Unlock held_a "a" =
    Next (State [LockItem false 0] {[ "a"%string := 0%nat ]} {[ "a"%string ]}
                false defaultCleanInterval).
Proof.
  pose proof (C7_Unlock_release_then_decrement held_a "a" 0%nat (LockItem true 1)
                eq_refl eq_refl eq_refl) as H.
  simpl in H.
  assert (Hr : min_int32 < 1 ≤ max_int32) by (unfold min_int32, max_int32; lia).
  destruct (H Hr) as (_ & _ & _ & _ & HU & _).
  rewrite HU. vm_compute. reflexivity.
Defined.

(** ** [Lock] *)

(** C8: [Lock(key)]
    - first fetches the entry of [key], or stores a fresh one with count 0
      and a free mutex when there is none (line 59);
    - then adds one to the entry's count, whatever happened in between, and
      leaves the mutex alone (line 66; the count is an [int32] below its
      maximum, where the addition does not wrap);
    - then waits while the mutex is held and takes it once it is free
      (line 68);
    - returns only from that last statement, with the mutex held;
    - and has no statement that panics. *)
Theorem C8_Lock_increment_then_acquire (s : state) (key : string) :
  ∃ p : ptr,
    (* line 59 *)
    caller_step s (Lock_59 key)
      = Next (set_locks (<[key := p]> (locks s))
                (set_heap (heap s ++ [LockItem false 0]) s), Lock_66 key p)
    ∧ (locks s !! key = Some p ∧ <[key := p]> (locks s) = locks s
       ∨ locks s !! key = None ∧ p = length (heap s)
         ∧ (heap s ++ [LockItem false 0]) !! p = Some (LockItem false 0))
    (* line 66 *)
    ∧ (∀ s' it, heap s' !! p = Some it → count it < max_int32 →
         min_int32 ≤ count it →
         caller_step s' (Lock_66 key p)
           = Next (poke p (LockItem (mutex it) (count it + 1)) s', Lock_68 key p))
    (* line 68 *)
    ∧ (∀ s' it, heap s' !! p = Some it →
         caller_step s' (Lock_68 key p)
           = if mutex it then Blocked
             else Next (poke p (LockItem true (count it)) s', Return))
    (* returning *)
    ∧ (∀ s' f r, lock_frame f → caller_step s' f = Next (r, Return) →
         ∃ k q it, f = Lock_68 k q ∧ heap s' !! q = Some it ∧ mutex it = false
                   ∧ heap r !! q = Some (LockItem true (count it)))
    (* no failure *)
    ∧ (∀ s' f msg, lock_frame f → caller_step s' f ≠ Fatal msg).
Proof.
  exists (default (length (heap s)) (locks s !! key)).
  split_and!.
  - simpl. unfold LoadOrStore. destruct (locks s !! key) as [q|] eqn:E; simpl.
    + by rewrite insert_id.
    + done.
  - destruct (locks s !! key) as [q|] eqn:E; simpl.
    + left. split; [done|]. by apply insert_id.
    + right. split_and!; try done.
      rewrite lookup_app_r; [|done]. by rewrite Nat.sub_diag.
  - intros s' it Hp Hmax Hmin. simpl.
    rewrite (AddInt32_Some _ _ _ _ Hp). simpl.
    rewrite wrap32_id; [done|]. unfold min_int32, max_int32 in *. lia.
  - intros s' it Hp. simpl. rewrite (mutex_Lock_Some _ _ _ Hp).
    by destruct (mutex it).
  - intros s' f r Hf Hs. destruct f as [k|k q|k q| | | | | |]; try done; simpl in Hs.
    + unfold LoadOrStore in Hs. destruct (locks s' !! k); simplify_eq.
    + destruct (AddInt32 (heap s') q 1) as [[h c]|]; simplify_eq.
    + exists k, q. unfold mutex_Lock in Hs.
      destruct (heap s' !! q) as [it|] eqn:E; [|done].
      exists it. destruct (mutex it) eqn:Em; [done|]. simpl in Hs. simplify_eq.
      split_and!; try done. simpl. by eapply lookup_poke.
  - intros s' f msg Hf Hs. destruct f as [k|k q|k q| | | | | |]; try done; simpl in Hs.
    + unfold LoadOrStore in Hs. destruct (locks s' !! k); simplify_eq.
    + destruct (AddInt32 (heap s') q 1) as [[h c]|]; simplify_eq.
    + unfold mutex_Lock in Hs.
      destruct (heap s' !! q) as [it|]; [|done]. by destruct (mutex it).
Qed.

(** [Lock] on a key whose entry is absent or free returns, whatever the
    entries of the other keys are: callers of distinct keys do not wait for
    each other. *)
Lemma Lock_returns (s : state) (key : string) :
  (∀ p, locks s !! key = Some p →
        ∃ it, heap s !! p = Some it ∧ mutex it = false) →
  ∃ s', Lock s key = Next s'.
Proof.
  intros H. unfold Lock. simpl. unfold LoadOrStore.
  destruct (locks s !! key) as [q|] eqn:E.
  - destruct (H q eq_refl) as (it & Hq & Hm).
    assert (Hq' : (heap s ++ [LockItem false 0]) !! q = Some it).
    { rewrite lookup_app_l; [done|]. by eapply lookup_lt_Some. }
    rewrite (AddInt32_Some _ _ _ _ Hq'). simpl.
    erewrite mutex_Lock_Some; [|by eapply lookup_poke].
    simpl. rewrite Hm. simpl. eauto.
  - assert (Hq' : (heap s ++ [LockItem false 0]) !! length (heap s)
                  = Some (LockItem false 0)).
    { rewrite lookup_app_r; [|done]. by rewrite Nat.sub_diag. }
    rewrite (AddInt32_Some _ _ _ _ Hq'). simpl.
    erewrite mutex_Lock_Some; [|by eapply lookup_poke].
    simpl. eauto.
Qed.

(** ** [cleanup], run without interruption *)

Lemma idle_Some (s : state) (k : string) (p : ptr) (it : lockItem) :
  locks s !! k = Some p → heap s !! p = Some it →
  idle s k = (count it <=? 0).
Proof. intros H1 H2. unfold idle. by rewrite H1, H2. Qed.

Lemma idle_None (s : state) (k : string) : locks s !! k = None → idle s k = false.
Proof. intros H. unfold idle. by rewrite H. Qed.

(** The visit of one key: an idle entry is deleted and its key collected,
    anything else is left alone.  In [klocker] the mutex is taken before the
    count is read and released afterwards, which restores the heap. *)
Lemma visit_spec (pkg : package) (s : state) (rm : list string) (k : string) :
  sweepable pkg s [k] →
  visit pkg s rm k =
    Next (if idle s k then (set_locks (delete k (locks s)) s, rm ++ [k]) else (s, rm)).
Proof.
  intros Hs. unfold visit.
  destruct (locks s !! k) as [p|] eqn:Ek; [|by rewrite idle_None].
  destruct (Hs k p) as (it & Hp & Hm); [set_solver|done|].
  rewrite (idle_Some _ _ _ _ Ek Hp).
  destruct pkg; simpl.
  - unfold LoadInt32. rewrite Hp. simpl.
    destruct (count it <=? 0); simpl; by destruct s.
  - rewrite (mutex_Lock_Some _ _ _ Hp), Hm; [|done]. simpl.
    unfold LoadInt32. erewrite lookup_poke; [|done]. simpl.
    assert (Hu : mutex_Unlock (<[p:=with_mutex true it]> (heap s)) p = Next (heap s)).
    { erewrite mutex_Unlock_Some; [|by eapply lookup_poke]. simpl.
      rewrite lock_unlock_id; auto. }
    destruct (count it <=? 0); simpl; rewrite Hu; simpl; by destruct s.
Qed.

Lemma sweepable_cons (pkg : package) (s : state) (k : string) (ks : list string) :
  sweepable pkg s (k :: ks) → sweepable pkg s [k] ∧ sweepable pkg s ks.
Proof.
  intros H. split; intros k' p Hin Hl; apply (H k' p); set_solver.
Qed.

Lemma sweepable_delete (pkg : package) (s : state) (k : string) (ks : list string) :
  sweepable pkg s ks → sweepable pkg (set_locks (delete k (locks s)) s) ks.
Proof.
  intros H k' p Hin Hl. simpl in *.
  apply lookup_delete_Some in Hl as [_ Hl]. by apply (H k' p).
Qed.

Lemma idle_delete (s : state) (k k' : string) :
  idle (set_locks (delete k (locks s)) s) k' =
    if decide (k = k') then false else idle s k'.
Proof.
  unfold idle. simpl. case_decide as E.
  - subst. by rewrite lookup_delete_eq.
  - by rewrite lookup_delete_ne.
Qed.

(** What a [Range] over [ks] leaves behind. *)
Lemma Range_spec (pkg : package) (ks : list string) :
  ∀ (s : state) (rm : list string),
    sweepable pkg s ks →
    ∃ s' rm',
      Range pkg ks s rm = Next (s', rm')
      ∧ heap s' = heap s ∧ cleanKeys s' = cleanKeys s
      ∧ closeCh s' = closeCh s ∧ interval s' = interval s
      ∧ (∀ k, locks s' !! k =
               if bool_decide (k ∈ ks) && idle s k then None else locks s !! k)
      ∧ (∀ k, k ∈ rm' ↔ k ∈ rm ∨ (k ∈ ks ∧ idle s k = true)).
Proof.
  induction ks as [|k0 ks IH]; intros s rm Hs.
  - exists s, rm. simpl. split_and!; try done.
    intros k. set_solver.
  - apply sweepable_cons in Hs as [Hs0 Hs].
    simpl. rewrite (visit_spec _ _ _ _ Hs0).
    destruct (idle s k0) eqn:Ei; simpl.
    + destruct (IH (set_locks (delete k0 (locks s)) s) (rm ++ [k0]))
        as (s' & rm' & HR & Hh & Hc & Hcl & Hi & Hl & Hrm);
        [by apply sweepable_delete|].
      exists s', rm'. split_and!; try done.
      * intros k. rewrite Hl, idle_delete. simpl.
        destruct (decide (k0 = k)) as [->|Hne].
        -- rewrite andb_false_r, lookup_delete_eq.
           rewrite bool_decide_eq_true_2, Ei; [done|set_solver].
        -- rewrite lookup_delete_ne by done.
           destruct (bool_decide (k ∈ ks)) eqn:Eb.
           ++ rewrite bool_decide_eq_true_2; [done|].
              apply bool_decide_eq_true in Eb. set_solver.
           ++ rewrite bool_decide_eq_false_2; [done|].
              apply bool_decide_eq_false in Eb. set_solver.
      * intros k. rewrite Hrm, idle_delete. rewrite elem_of_app.
        destruct (decide (k0 = k)) as [->|Hne]; set_solver.
    + destruct (IH s rm Hs) as (s' & rm' & HR & Hh & Hc & Hcl & Hi & Hl & Hrm).
      exists s', rm'. split_and!; try done.
      * intros k. rewrite Hl.
        destruct (decide (k0 = k)) as [->|Hne].
        -- by rewrite Ei, !andb_false_r.
        -- destruct (bool_decide (k ∈ ks)) eqn:Eb.
           ++ rewrite bool_decide_eq_true_2; [done|].
              apply bool_decide_eq_true in Eb. set_solver.
           ++ rewrite bool_decide_eq_false_2; [done|].
              apply bool_decide_eq_false in Eb. set_solver.
      * intros k. rewrite Hrm.
        destruct (decide (k0 = k)) as [->|Hne]; [|set_solver].
        split; [set_solver|]. intros [?|[? ?]]; [by left|congruence].
Qed.

Lemma elem_of_drop_keys (rm : list string) :
  ∀ (c : gset string) (k : string), k ∈ drop_keys c rm ↔ k ∈ c ∧ k ∉ rm.
Proof.
  induction rm as [|k0 rm IH]; intros c k; simpl.
  - set_solver.
  - unfold drop_keys in *. simpl. rewrite IH. set_solver.
Qed.

(** What a cleanup pass leaves behind, for any order [ks] in which [Range]
    enumerates the pending set. *)
Lemma cleanup_in_spec (pkg : package) (ks : list string) (s : state) :
  (∀ k, k ∈ ks ↔ k ∈ cleanKeys s) →
  sweepable pkg s ks →
  ∃ s',
    cleanup_in pkg ks s = Next s'
    ∧ heap s' = heap s ∧ closeCh s' = closeCh s ∧ interval s' = interval s
    ∧ (∀ k, locks s' !! k =
             if bool_decide (k ∈ cleanKeys s) && idle s k then None else locks s !! k)
    ∧ (∀ k, k ∈ cleanKeys s' ↔ k ∈ cleanKeys s ∧ idle s k = false).
Proof.
  intros Hks Hs. unfold cleanup_in.
  destruct (Range_spec pkg ks s [] Hs)
    as (s1 & rm & HR & Hh & Hc & Hcl & Hi & Hl & Hrm).
  rewrite HR. simpl.
  eexists. split; [done|]. simpl. split_and!; try done.
  - intros k. rewrite Hl.
    destruct (bool_decide (k ∈ ks)) eqn:Eb.
    + rewrite bool_decide_eq_true_2; [done|].
      apply bool_decide_eq_true in Eb. by apply Hks.
    + rewrite bool_decide_eq_false_2; [done|].
      apply bool_decide_eq_false in Eb. by rewrite <- Hks.
  - intros k. rewrite elem_of_drop_keys, Hc, Hrm, Hks.
    destruct (idle s k); set_solver.
Qed.

Lemma state_eq (s s' : state) :
  heap s = heap s' → locks s = locks s' → cleanKeys s = cleanKeys s' →
  closeCh s = closeCh s' → interval s = interval s' → s = s'.
Proof. destruct s, s'; simpl; congruence. Qed.

(** The order in which [Range] enumerates the pending set does not matter. *)
Lemma cleanup_order (pkg : package) (ks : list string) (s : state) :
  (∀ k, k ∈ ks ↔ k ∈ cleanKeys s) →
  sweepable pkg s ks →
  cleanup_in pkg ks s = cleanup pkg s.
Proof.
  intros Hks Hs.
  assert (He : ∀ k, k ∈ elements (cleanKeys s) ↔ k ∈ cleanKeys s)
    by (intros k; apply elem_of_elements).
  assert (Hs' : sweepable pkg s (elements (cleanKeys s))).
  { intros k p Hin Hl. apply (Hs k p); [|done]. apply Hks. by apply He. }
  destruct (cleanup_in_spec pkg ks s Hks Hs) as (s1 & H1 & Hh1 & Hc1 & Hi1 & Hl1 & Hk1).
  destruct (cleanup_in_spec pkg _ s He Hs') as (s2 & H2 & Hh2 & Hc2 & Hi2 & Hl2 & Hk2).
  unfold cleanup. rewrite H1, H2. f_equal.
  apply state_eq; try congruence.
  - apply map_eq. intros k. by rewrite Hl1, Hl2.
  - apply set_eq. intros k. by rewrite Hk1, Hk2.
Qed.

(** ** [cleanup] is the cleaner's statements run in sequence *)

Lemma pass_DropKeys (pkg : package) (rm : list string) :
  ∀ s, pass pkg (S (length rm)) s (DropKeys rm)
       = Next (set_cleanKeys (drop_keys (cleanKeys s) rm) s).
Proof.
  induction rm as [|k rm IH]; intros s.
  - simpl. by destruct s.
  - change (pass pkg (S (length (k :: rm))) s (DropKeys (k :: rm)))
      with (pass pkg (S (length rm)) (set_cleanKeys (cleanKeys s ∖ {[k]}) s) (DropKeys rm)).
    rewrite IH. by destruct s.
Qed.

Lemma pass_Range (pkg : package) (ks : list string) :
  ∀ s rm, ∃ n,
    pass pkg n s (RangeNext ks rm)
    = ('(s', rm') ← Range pkg ks s rm;
       Next (set_cleanKeys (drop_keys (cleanKeys s') rm') s')).
Proof.
  induction ks as [|k ks IH]; intros s rm.
  - exists (S (S (length rm))).
    change (pass pkg (S (S (length rm))) s (RangeNext [] rm))
      with (pass pkg (S (length rm)) s (DropKeys rm)).
    by rewrite pass_DropKeys.
  - simpl Range. unfold visit.
    destruct (locks s !! k) as [p|] eqn:Ek.
    + destruct pkg.
      * (* grouplock *)
        destruct (LoadInt32 (heap s) p) as [c|] eqn:Ec.
        -- destruct (c <=? 0) eqn:E0.
           ++ destruct (IH (set_locks (delete k (locks s)) s) (rm ++ [k])) as [n Hn].
              exists (S (S (S n))). simpl. rewrite Ek. simpl. rewrite Ec. simpl.
              rewrite E0. simpl. simpl in Hn. rewrite Hn. by destruct s.
           ++ destruct (IH s rm) as [n Hn].
              exists (S (S n)). simpl. rewrite Ek. simpl. rewrite Ec. simpl.
              rewrite E0. simpl. simpl in Hn. rewrite Hn. by destruct s.
        -- exists 2%nat. simpl. rewrite Ek. simpl. by rewrite Ec.
      * (* klocker *)
        destruct (mutex_Lock (heap s) p) as [h1| | |] eqn:El;
          try (exists 2%nat; simpl; rewrite Ek; simpl; by rewrite El).
        destruct (LoadInt32 h1 p) as [c|] eqn:Ec;
          [|exists 3%nat; simpl; rewrite Ek; simpl; rewrite El; simpl; by rewrite Ec].
        destruct (c <=? 0) eqn:E0.
        -- destruct (mutex_Unlock h1 p) as [h2| | |] eqn:Eu;
             try (exists 5%nat; simpl; rewrite Ek; simpl; rewrite El; simpl;
                  rewrite Ec; simpl; rewrite E0; simpl; by rewrite Eu).
           destruct (IH (set_locks (delete k (locks s)) (set_heap h2 s)) (rm ++ [k]))
             as [n Hn].
           exists (S (S (S (S (S n))))). simpl. rewrite Ek. simpl. rewrite El. simpl.
           rewrite Ec. simpl. rewrite E0. simpl. rewrite Eu. simpl.
           unfold set_locks, set_heap in *. simpl in *. by rewrite Hn.
        -- destruct (mutex_Unlock h1 p) as [h2| | |] eqn:Eu;
             try (exists 4%nat; simpl; rewrite Ek; simpl; rewrite El; simpl;
                  rewrite Ec; simpl; rewrite E0; simpl; by rewrite Eu).
           destruct (IH (set_locks (locks s) (set_heap h2 s)) rm) as [n Hn].
           exists (S (S (S (S n)))). simpl. rewrite Ek. simpl. rewrite El. simpl.
           rewrite Ec. simpl. rewrite E0. simpl. rewrite Eu. simpl.
           unfold set_locks, set_heap in *. simpl in *. by rewrite Hn.
    + destruct (IH s rm) as [n Hn].
      exists (S n). simpl. rewrite Ek. simpl. simpl in Hn. by rewrite Hn.
Qed.

(** The cleaner, run alone from the call of [cleanup], does what the
    function [cleanup] does, whatever that is (a result, or a wait on a held
    mutex in [klocker]). *)
Lemma pass_cleanup (pkg : package) (s : state) :
  ∃ n, pass pkg n s CallCleanup = cleanup pkg s.
Proof.
  destruct (pass_Range pkg (elements (cleanKeys s)) s []) as [n Hn].
  exists (S n). unfold cleanup, cleanup_in. simpl. by rewrite Hn.
Qed.

(** ** What a pass does to a pending key *)

(** C10: a pass over a state in which [k] is pending and has no entry ends,
    leaves [k] pending and leaves [k] without an entry; any key that the
    pass takes out of the pending set had an entry before the pass and has
    none after it; and the visit of [k] itself is the lookup alone, which
    changes nothing and collects nothing.  The pass is one that does not
    have to wait ([sweepable]); both packages. *)
Theorem C10_pending_key_without_entry (pkg : package) (s : state) (k : string) :
  sweepable pkg s (elements (cleanKeys s)) →
  k ∈ cleanKeys s →
  locks s !! k = None →
  ∃ s',
    cleanup pkg s = Next s'
    ∧ k ∈ cleanKeys s'
    ∧ locks s' !! k = None
    ∧ (∀ k', k' ∈ cleanKeys s → k' ∉ cleanKeys s' →
             is_Some (locks s !! k') ∧ locks s' !! k' = None)
    ∧ (∀ pick t todo rm,
         cleaner_step pkg pick s t (RangeNext (k :: todo) rm)
           = Next (s, t, RangeNext todo rm)).
Proof.
  intros Hs Hk Hl.
  destruct (cleanup_in_spec pkg (elements (cleanKeys s)) s)
    as (s' & HC & _ & _ & _ & Hlocks & Hkeys);
    [intros; apply elem_of_elements|done|].
  exists s'. split_and!; [done| | | |].
  - apply Hkeys. split; [done|]. by apply idle_None.
  - rewrite Hlocks, Hl. by destruct (_ && _).
  - intros k' Hin Hout.
    assert (Hi : idle s k' = true).
    { destruct (idle s k') eqn:E; [done|]. exfalso. apply Hout. by apply Hkeys. }
    split.
    + unfold idle in Hi. destruct (locks s !! k'); [eauto|done].
    + rewrite Hlocks, Hi. by rewrite bool_decide_eq_true_2.
  - intros pick t todo rm. simpl. rewrite Hl. by destruct pkg.
Qed.

Lemma C10_pending_key_without_entry_witness :
  ∃ s', cleanup klocker pending_only = Next s'
        ∧ "a"%string ∈ cleanKeys s' ∧ locks s' !! "a"%string = None.
Proof.
  destruct (C10_pending_key_without_entry klocker pending_only "a")
    as (s' & H1 & H2 & H3 & _ & _).
  - intros k p _ Hl. vm_compute in Hl. discriminate.
  - vm_compute. set_solver.
  - reflexivity.
  - by exists s'.
Defined.

(** C5, as the code has it.  For a pending key [k] whose entry can be taken
    (the pass does not have to wait):
    - the pass ends, with the heap as it was; when the count is at most zero
      the entry is gone from the registry and [k] from the pending set; when
      the count is positive the entry stays and so does [k] in the pending
      set;
    - in [klocker] the statements for [k] are, in order: lookup, mutex taken,
      count read with the mutex held, entry deleted and key collected (count
      at most zero only), mutex released;
    - in [grouplock] they are: lookup, count read, entry deleted and key
      collected (count at most zero only), with no mutex touched. *)
Theorem C5_sweep_check_and_delete
    (pkg : package) (s : state) (k : string) (p : ptr) (it : lockItem) :
  sweepable pkg s (elements (cleanKeys s)) →
  k ∈ cleanKeys s →
  locks s !! k = Some p →
  heap s !! p = Some it →
  (∃ s', cleanup pkg s = Next s' ∧ heap s' = heap s
         ∧ if count it <=? 0
           then locks s' !! k = None ∧ k ∉ cleanKeys s'
           else locks s' !! k = Some p ∧ k ∈ cleanKeys s')
  ∧ (∀ pick t todo rm,
       let held := poke p (with_mutex true it) s in
       let gone := set_locks (delete k (locks s)) in
       match pkg with
       | klocker =>
           cleaner_step klocker pick s t (RangeNext (k :: todo) rm)
             = Next (s, t, MutexLock k p todo rm)
           ∧ cleaner_step klocker pick s t (MutexLock k p todo rm)
             = Next (held, t, LoadCount k p todo rm)
           ∧ cleaner_step klocker pick held t (LoadCount k p todo rm)
             = Next (held, t, if count it <=? 0 then DeleteKey k p todo rm
                              else MutexUnlock k p todo rm)
           ∧ cleaner_step klocker pick held t (DeleteKey k p todo rm)
             = Next (gone held, t, MutexUnlock k p todo (rm ++ [k]))
           ∧ cleaner_step klocker pick (gone held) t (MutexUnlock k p todo (rm ++ [k]))
             = Next (gone s, t, RangeNext todo (rm ++ [k]))
           ∧ cleaner_step klocker pick held t (MutexUnlock k p todo rm)
             = Next (s, t, RangeNext todo rm)
       | grouplock =>
           cleaner_step grouplock pick s t (RangeNext (k :: todo) rm)
             = Next (s, t, LoadCount k p todo rm)
           ∧ cleaner_step grouplock pick s t (LoadCount k p todo rm)
             = Next (s, t, if count it <=? 0 then DeleteKey k p todo rm
                           else RangeNext todo rm)
           ∧ cleaner_step grouplock pick s t (DeleteKey k p todo rm)
             = Next (gone s, t, RangeNext todo (rm ++ [k]))
       end).
Proof.
  intros Hs Hk Hl Hp. split.
  - destruct (cleanup_in_spec pkg (elements (cleanKeys s)) s)
      as (s' & HC & Hh & _ & _ & Hlocks & Hkeys);
      [intros; apply elem_of_elements|done|].
    exists s'. split_and!; [done|done|].
    pose proof (idle_Some _ _ _ _ Hl Hp) as Hi.
    destruct (count it <=? 0).
    + split.
      * rewrite Hlocks, Hi. by rewrite bool_decide_eq_true_2.
      * rewrite Hkeys. rewrite Hi. intros [_ ?]. done.
    + split.
      * rewrite Hlocks, Hi. by rewrite andb_false_r.
      * by apply Hkeys.
  - intros pick t todo rm held gone. destruct pkg.
    + split_and!; simpl.
      * by rewrite Hl.
      * unfold LoadInt32. rewrite Hp. simpl. by destruct (count it <=? 0).
      * done.
    + destruct (Hs k p) as (it' & Hp' & Hm); [by apply elem_of_elements|done|].
      assert (it' = it) by congruence. subst it'.
      specialize (Hm eq_refl).
      assert (Hheld : heap held !! p = Some (with_mutex true it)).
      { simpl. by eapply lookup_poke. }
      assert (Hrel : <[p := with_mutex false (with_mutex true it)]> (heap held) = heap s).
      { simpl. by apply lock_unlock_id. }
      split_and!; simpl.
      * by rewrite Hl.
      * by rewrite (mutex_Lock_Some _ _ _ Hp), Hm.
      * unfold LoadInt32. simpl in Hheld. rewrite Hheld. simpl.
        by destruct (count it <=? 0).
      * done.
      * simpl in Hheld, Hrel. rewrite (mutex_Unlock_Some _ _ _ Hheld). simpl.
        unfold gone. simpl. rewrite Hrel. by destruct s.
      * simpl in Hheld, Hrel. rewrite (mutex_Unlock_Some _ _ _ Hheld). simpl.
        rewrite Hrel. by destruct s.
Qed.

Lemma pending_in_use_sweepable (pkg : package) :
  sweepable pkg pending_in_use (elements (cleanKeys pending_in_use)).
Proof.
  intros k p _ Hl. unfold pending_in_use in Hl. simpl in Hl.
  apply lookup_singleton_Some in Hl as [_ <-].
  exists (LockItem false 1). done.
Qed.

Lemma C5_sweep_check_and_delete_witness :
  ∃ s', cleanup klocker pending_in_use = Next s'
        ∧ locks s' !! "a"%string = Some 0%nat ∧ "a"%string ∈ cleanKeys s'.
Proof.
  destruct (C5_sweep_check_and_delete klocker pending_in_use "a" 0%nat (LockItem false 1))
    as [(s' & H1 & _ & H2) _].
  - apply pending_in_use_sweepable.
  - vm_compute. set_solver.
  - reflexivity.
  - reflexivity.
  - exists s'. simpl in H2. by destruct H2.
Defined.

(** C5 as stated fails.  After [Lock("a")], [Unlock("a")] and the first two
    statements of a second [Lock("a")], key ["a"] is pending, its count is 1
    and its mutex is free.  A pass run now takes the mutex, finds the count
    positive, and leaves ["a"] in the pending set (the state is unchanged),
    in both packages. *)
Lemma C5_positive_count_stays_pending :
  run klocker (start (New []))
      (do_Lock 0 "a" ++ do_Unlock 0 "a" ++ [Invoke 1 (CallLock "a"); Run 1; Run 1])
    = Next (World pending_in_use false
                  {[ 0%nat := Return; 1%nat := Lock_68 "a" 0%nat ]} Select ∅)
  ∧ mutex_Lock (heap pending_in_use) 0%nat = Next [LockItem true 1; LockItem false 0]
  ∧ cleanup klocker pending_in_use = Next pending_in_use
  ∧ cleanup grouplock pending_in_use = Next pending_in_use
  ∧ "a"%string ∈ cleanKeys pending_in_use.
Proof.
  split_and!; vm_compute; reflexivity.
Qed.

(** ** The cleaner and the mutexes *)

(** C4, as the code has it.  A pass goes through the keys that are pending
    when it starts.  For a pending key that has an entry, the [klocker]
    cleaner goes to [lockData.mutex.Lock()], and that statement waits as long
    as the mutex is held: the key is not skipped.  The [grouplock] cleaner
    never changes the heap, so it takes no mutex at all, and it waits nowhere
    but at an empty select.  A pending key without an entry is passed over
    in both packages. *)
Theorem C4_sweep_acquisition_blocks_or_is_absent :
  (∀ pkg pick s t,
     cleaner_step pkg pick s t CallCleanup
       = Next (s, t, RangeNext (elements (cleanKeys s)) [])
     ∧ ∀ k, k ∈ elements (cleanKeys s) ↔ k ∈ cleanKeys s)
  ∧ (∀ pick s t k p todo rm, locks s !! k = Some p →
     cleaner_step klocker pick s t (RangeNext (k :: todo) rm)
       = Next (s, t, MutexLock k p todo rm))
  ∧ (∀ pick s t k p todo rm it, heap s !! p = Some it →
     cleaner_step klocker pick s t (MutexLock k p todo rm)
       = if mutex it then Blocked
         else Next (poke p (with_mutex true it) s, t, LoadCount k p todo rm))
  ∧ (∀ pick s t f s' t' f',
     cleaner_step grouplock pick s t f = Next (s', t', f') → heap s' = heap s)
  ∧ (∀ pick s t f,
     cleaner_step grouplock pick s t f = Blocked →
     f = Select ∧ t = false ∧ closeCh s = false)
  ∧ (∀ pkg pick s t k todo rm, locks s !! k = None →
     cleaner_step pkg pick s t (RangeNext (k :: todo) rm)
       = Next (s, t, RangeNext todo rm)).
Proof.
  split_and!.
  - intros pkg pick s t. split; [done|]. intros k. apply elem_of_elements.
  - intros pick s t k p todo rm Hl. simpl. by rewrite Hl.
  - intros pick s t k p todo rm it Hp. simpl.
    rewrite (mutex_Lock_Some _ _ _ Hp). by destruct (mutex it).
  - intros pick s t f s' t' f' H.
    destruct f as [| |[|k todo] rm|k p todo rm|k p todo rm|k p todo rm|k p todo rm|[|k rm]|];
      simpl in H; try by simplify_eq.
    + destruct t, (closeCh s), pick; by simplify_eq.
    + destruct (locks s !! k); by simplify_eq.
    + destruct (LoadInt32 (heap s) p) as [c|]; simpl in H; [|done].
      destruct (c <=? 0); by simplify_eq.
  - intros pick s t f H.
    destruct f as [| |[|k todo] rm|k p todo rm|k p todo rm|k p todo rm|k p todo rm|[|k rm]|];
      simpl in H; try by simplify_eq.
    + destruct t, (closeCh s), pick; by simplify_eq.
    + destruct (locks s !! k); by simplify_eq.
    + destruct (LoadInt32 (heap s) p) as [c|]; simpl in H; [|done].
      destruct (c <=? 0); by simplify_eq.
  - intros pkg pick s t k todo rm Hl. simpl. rewrite Hl. by destruct pkg.
Qed.

(** C4 as stated fails in [klocker].  With ["a"] pending and held again by
    goroutine 0, the cleaner reaches the mutex of ["a"] and can only wait
    there: it neither skips the key nor goes on. *)
Lemma C4_klocker_sweep_waits_for_holder :
  ∃ w, run klocker (start (New [])) sweep_meets_holder = Next w
       ∧ "a"%string ∈ cleanKeys (shared w)
       ∧ in_critical w 0 "a"
       ∧ cleaner w = MutexLock "a" 0%nat [] []
       ∧ step klocker w (Sweep true) = Blocked
       ∧ step klocker w (Sweep false) = Blocked.
Proof.
  eexists. split; [vm_compute; reflexivity|].
  split_and!; vm_compute; reflexivity.
Qed.

(** ** Monotonicity of the registry under the callers *)

(** No statement of [Lock], [Unlock] or [Stop] takes an entry out of the
    registry or replaces it. *)
Lemma caller_step_keeps_entries (s s' : state) (f f' : frame) :
  caller_step s f = Next (s', f') →
  ∀ k p, locks s !! k = Some p → locks s' !! k = Some p.
Proof.
  intros H k p Hk.
  destruct f as [key|key q|key q|key|key q|key q|key c| |]; simpl in H.
  - unfold LoadOrStore in H. destruct (locks s !! key) as [a|] eqn:E; simplify_eq; simpl.
    + done.
    + rewrite lookup_insert_ne; [done|]. intros ->. congruence.
  - destruct (AddInt32 (heap s) q 1) as [[h c]|]; by simplify_eq/=.
  - destruct (mutex_Lock (heap s) q); by simplify_eq/=.
  - destruct (locks s !! key); by simplify_eq/=.
  - destruct (mutex_Unlock (heap s) q); by simplify_eq/=.
  - destruct (AddInt32 (heap s) q (-1)) as [[h c]|]; by simplify_eq/=.
  - destruct (c <=? 0); by simplify_eq/=.
  - destruct (close (closeCh s)); by simplify_eq/=.
  - done.
Qed.

Lemma step_after_exit (pkg : package) (w w' : world) (e : event) :
  cleaner w = Exit → step pkg w e = Next w' →
  cleaner w' = Exit
  ∧ ∀ k p, locks (shared w) !! k = Some p → locks (shared w') !! k = Some p.
Proof.
  intros Hx H. destruct e as [g c|g| |pick]; simpl in H.
  - destruct (callers w !! g) as [[]|]; by simplify_eq/=.
  - destruct (callers w !! g) as [f|]; simpl in H; [|done].
    destruct (caller_step (shared w) f) as [[s' f']| | |] eqn:E; simpl in H; simplify_eq.
    simpl. split; [done|]. by eapply caller_step_keeps_entries.
  - rewrite Hx in H. by simplify_eq/=.
  - rewrite Hx in H. simpl in H. done.
Qed.

Lemma run_after_exit (pkg : package) (es : list event) :
  ∀ w w', cleaner w = Exit → run pkg w es = Next w' →
  cleaner w' = Exit
  ∧ ∀ k p, locks (shared w) !! k = Some p → locks (shared w') !! k = Some p.
Proof.
  induction es as [|e es IH]; intros w w' Hx H; simpl in H.
  - by simplify_eq/=.
  - destruct (step pkg w e) as [w1| | |] eqn:E; simpl in H; try done.
    destruct (step_after_exit _ _ _ _ Hx E) as [Hx1 Hm1].
    destruct (IH _ _ Hx1 H) as [Hx' Hm']. split; [done|].
    intros k p Hk. apply Hm', Hm1, Hk.
Qed.

(** ** [Stop] and the cleaner *)

(** C9, as the code has it.
    - The first [Stop] closes the channel and changes nothing else: heap,
      registry and pending set are as before.
    - No statement of [Lock] or [Unlock] looks at the channel: each does on
      a stopped handle what it does on a running one.
    - A cleaner that comes to its select with the channel closed and no tick
      waiting returns.
    - Once the cleaner has returned, whatever happens afterwards, it stays
      returned and no entry leaves the registry.
    What is not there: a pass whose tick was received before [Stop], or was
    waiting together with the close, still runs (see the lemma after this
    one). *)
Theorem C9_Stop_halts_later_passes (pkg : package) :
  (∀ s, closeCh s = false →
        Stop s = Next (set_closeCh true s)
        ∧ caller_step s Stop_close = Next (set_closeCh true s, Return)
        ∧ heap (set_closeCh true s) = heap s
        ∧ locks (set_closeCh true s) = locks s
        ∧ cleanKeys (set_closeCh true s) = cleanKeys s)
  ∧ (∀ s f s' f' b, f ≠ Stop_close →
        caller_step s f = Next (s', f') →
        caller_step (set_closeCh b s) f = Next (set_closeCh b s', f'))
  ∧ (∀ s pick, closeCh s = true →
        cleaner_step pkg pick s false Select = Next (s, false, Exit))
  ∧ (∀ w es w', cleaner w = Exit → run pkg w es = Next w' →
        cleaner w' = Exit
        ∧ ∀ k p, locks (shared w) !! k = Some p → locks (shared w') !! k = Some p).
Proof.
  split_and!.
  - intros s Hc. unfold Stop, caller_step, close. rewrite Hc. done.
  - intros s f s' f' b Hf H.
    destruct f as [key|key q|key q|key|key q|key q|key c| |]; simpl in *; try done.
    + unfold LoadOrStore in *. destruct (locks s !! key); by simplify_eq/=.
    + destruct (AddInt32 (heap s) q 1) as [[h c]|]; by simplify_eq/=.
    + destruct (mutex_Lock (heap s) q); by simplify_eq/=.
    + destruct (locks s !! key); by simplify_eq/=.
    + destruct (mutex_Unlock (heap s) q); by simplify_eq/=.
    + destruct (AddInt32 (heap s) q (-1)) as [[h c]|]; by simplify_eq/=.
    + destruct (c <=? 0); by simplify_eq/=.
  - intros s pick Hc. simpl. by rewrite Hc.
  - intros w es w'. apply run_after_exit.
Qed.

(** C9 as stated fails: reclamation can follow a completed [Stop].  In the
    first schedule the cleaner has received a tick and has not yet called
    [cleanup] when [Stop] runs; in the second the tick is still in the
    channel when [Stop] closes the other one, and the select takes the tick.
    Either way ["a"], present when [Stop] returns and unlocked afterwards, is
    deleted. *)
Lemma C9_reclaimed_after_Stop :
  reclaimed_after_Stop grouplock stop_after_tick 7
  ∧ reclaimed_after_Stop klocker stop_after_tick 9
  ∧ reclaimed_after_Stop grouplock stop_with_tick_waiting 8
  ∧ reclaimed_after_Stop klocker stop_with_tick_waiting 10.
Proof.
  split_and!;
    (eexists; eexists; split; [vm_compute; reflexivity|];
     split_and!; vm_compute; reflexivity).
Qed.

(** ** One entry per key *)

Section one_entry.
Variable pkg : package.
Variable k : string.

Lemma caller_step_unlock_key (s s' : state) (f f' : frame) :
  caller_step s f = Next (s', f') →
  unlock_key f ≠ Some k →
  unlock_key f' ≠ Some k
  ∧ (k ∉ cleanKeys s → k ∉ cleanKeys s').
Proof.
  intros H Hf.
  destruct f as [key|key q|key q|key|key q|key q|key c| |]; simpl in H, Hf.
  - unfold LoadOrStore in H. destruct (locks s !! key); by simplify_eq/=.
  - destruct (AddInt32 (heap s) q 1) as [[h c]|]; by simplify_eq/=.
  - destruct (mutex_Lock (heap s) q); by simplify_eq/=.
  - destruct (locks s !! key); by simplify_eq/=.
  - destruct (mutex_Unlock (heap s) q); by simplify_eq/=.
  - destruct (AddInt32 (heap s) q (-1)) as [[h c]|]; by simplify_eq/=.
  - destruct (c <=? 0); simplify_eq/=; split; try done.
    intros Hk. set_solver.
  - destruct (close (closeCh s)); by simplify_eq/=.
  - done.
Qed.

(** What a caller's statement does to the entry of [k] and to what the
    callers have got for [k]. *)
Lemma caller_step_observes (s s' : state) (f f' : frame) :
  caller_step s f = Next (s', f') →
  (∀ p, observes f k p → locks s !! k = Some p) →
  (∀ p, observes f' k p → locks s' !! k = Some p)
  ∧ (∀ p, locks s !! k = Some p → locks s' !! k = Some p).
Proof.
  intros H Hf. split; [|by eapply caller_step_keeps_entries].
  unfold observes in *.
  destruct f as [key|key q|key q|key|key q|key q|key c| |]; simpl in H.
  - unfold LoadOrStore in H.
    destruct (locks s !! key) as [a|] eqn:E; simplify_eq/=.
    + intros p [?|?]; by simplify_eq.
    + intros p [?|?]; simplify_eq. apply lookup_insert_eq.
  - destruct (AddInt32 (heap s) q 1) as [[h c]|]; simplify_eq/=.
    intros p [?|?]; simplify_eq. apply Hf. by left.
  - destruct (mutex_Lock (heap s) q); simplify_eq/=. intros p [?|?]; done.
  - destruct (locks s !! key) as [a|]; simplify_eq/=; intros p [?|?]; done.
  - destruct (mutex_Unlock (heap s) q); simplify_eq/=. intros p [?|?]; done.
  - destruct (AddInt32 (heap s) q (-1)) as [[h c]|]; simplify_eq/=.
    intros p [?|?]; done.
  - destruct (c <=? 0); simplify_eq/=; intros p [?|?]; done.
  - destruct (close (closeCh s)); simplify_eq/=. intros p [?|?]; done.
  - done.
Qed.

(** The cleaner leaves alone a key that it does not have in hand and that
    is not pending. *)
Lemma cleaner_step_other_key (pick : bool) (s s' : state) (t t' : bool)
    (f f' : cframe) :
  cleaner_step pkg pick s t f = Next (s', t', f') →
  k ∉ cleanKeys s → k ∉ cframe_keys f →
  (k ∉ cleanKeys s') ∧ (k ∉ cframe_keys f') ∧ locks s' !! k = locks s !! k.
Proof.
  intros H Hc Hf.
  destruct f as [| |[|k0 todo] rm|k0 p todo rm|k0 p todo rm|k0 p todo rm
                |k0 p todo rm|[|k0 rm]|]; simpl in H, Hf.
  - destruct t, (closeCh s), pick; simplify_eq/=; set_solver.
  - simplify_eq/=. split_and!; try done.
    rewrite app_nil_r. by rewrite elem_of_elements.
  - by simplify_eq/=.
  - destruct (locks s !! k0), pkg; simplify_eq/=; split_and!; try done; set_solver.
  - destruct pkg; [done|].
    destruct (mutex_Lock (heap s) p); by simplify_eq/=.
  - destruct (LoadInt32 (heap s) p) as [c|]; simpl in H; [|done].
    destruct (c <=? 0), pkg; simplify_eq/=; split_and!; try done; set_solver.
  - simplify_eq/=. split_and!; [done| |].
    + destruct pkg; simpl; set_solver.
    + rewrite lookup_delete_ne; [done|]. set_solver.
  - destruct pkg; [done|].
    destruct (mutex_Unlock (heap s) p); simplify_eq/=.
    split_and!; try done; set_solver.
  - simplify_eq/=. split_and!; try done; set_solver.
  - simplify_eq/=. split_and!; try done; set_solver.
  - done.
Qed.

Lemma step_entry_invariant (w w' : world) (e : event) :
  (∀ g, e ≠ Invoke g (CallUnlock k)) →
  entry_invariant k w →
  step pkg w e = Next w' →
  entry_invariant k w'
  ∧ (∀ p, locks (shared w) !! k = Some p → locks (shared w') !! k = Some p).
Proof.
  intros He [(Hc & Hu & Hf) Hs] H.
  destruct e as [g c|g| |pick]; simpl in H.
  - assert (Hw : w' = invoke w g c).
    { destruct (callers w !! g) as [[]|]; by simplify_eq. }
    subst w'. clear H. split; [|done].
    unfold entry_invariant, same_entry, invoke in *.
    split; [split_and!|]; simpl; try done.
    + intros g' f'. rewrite lookup_insert. case_decide.
      * intros ?; simplify_eq. destruct c as [key|key|]; simpl; try done.
        intros ?; simplify_eq. by eapply He.
      * apply Hu.
    + intros g' f' p. rewrite lookup_insert. case_decide.
      * intros ?; simplify_eq. intros [?|?]; destruct c; done.
      * apply Hs.
  - destruct (callers w !! g) as [f|] eqn:Eg; simpl in H; [|done].
    destruct (caller_step (shared w) f) as [[s' f']| | |] eqn:E; simpl in H;
      simplify_eq.
    destruct (caller_step_unlock_key _ _ _ _ E (Hu _ _ Eg)) as [Hu' Hc'].
    destruct (caller_step_observes _ _ _ _ E) as [Ho' Hm'];
      [intros p; by apply (Hs g)|].
    split; [|done].
    unfold entry_invariant, same_entry in *.
    split; [split_and!|]; simpl; try done.
    + by apply Hc'.
    + intros g' f0. rewrite lookup_insert. case_decide.
      * intros ?; by simplify_eq.
      * apply Hu.
    + intros g' f0 p. rewrite lookup_insert. case_decide.
      * intros ?; simplify_eq. apply Ho'.
      * intros Hg' Hobs. apply Hm'. by apply (Hs g' f0).
  - assert (Hw : shared w' = shared w ∧ callers w' = callers w
                 ∧ cleaner w' = cleaner w).
    { destruct (cleaner w) eqn:Ec; simplify_eq; simpl; done. }
    destruct Hw as (Hw1 & Hw2 & Hw3).
    split; [|by rewrite Hw1].
    split; [split_and!|]; rewrite ?Hw1, ?Hw2, ?Hw3; try done.
    intros g f p. rewrite Hw1, Hw2. apply Hs.
  - destruct (cleaner_step pkg pick (shared w) (tickerC w) (cleaner w))
      as [[[s' t'] f']| | |] eqn:E; simpl in H; simplify_eq.
    destruct (cleaner_step_other_key _ _ _ _ _ _ _ E Hc Hf) as (Hc' & Hf' & Hl').
    split; [|simpl; by rewrite Hl'].
    unfold entry_invariant, same_entry in *.
    split; [split_and!|]; simpl; try done.
    intros g f p Hg Hobs. rewrite Hl'. by apply (Hs g f).
Qed.

Lemma run_entry_invariant (es : list event) :
  ∀ w w', no_unlock k es → entry_invariant k w → run pkg w es = Next w' →
  entry_invariant k w'
  ∧ (∀ p, locks (shared w) !! k = Some p → locks (shared w') !! k = Some p).
Proof.
  induction es as [|e es IH]; intros w w' Hn Hi H; simpl in H.
  - by simplify_eq.
  - apply Forall_cons in Hn as [He Hn].
    destruct (step pkg w e) as [w1| | |] eqn:E; simpl in H; try done.
    destruct (step_entry_invariant _ _ _ He Hi E) as [Hi1 Hm1].
    destruct (IH _ _ Hn Hi1 H) as [Hi' Hm'].
    split; [done|]. intros p Hp. by apply Hm', Hm1.
Qed.

Lemma first_time_invariant (w : world) : first_time k w → entry_invariant k w.
Proof.
  intros (_ & Hn & Ho). split; [done|].
  intros g f p Hg Hobs. by destruct (Ho g f p Hg).
Qed.
End one_entry.

Lemma run_app (pkg : package) (es1 es2 : list event) :
  ∀ w w1, run pkg w es1 = Next w1 → run pkg w (es1 ++ es2) = run pkg w1 es2.
Proof.
  induction es1 as [|e es1 IH]; intros w w1 H; simpl in *.
  - by simplify_eq.
  - destruct (step pkg w e) as [w'| | |]; simpl in *; try done. by apply IH.
Qed.

(** A statement that creates an entry for [k] leaves [k] with an entry; any
    other statement leaves a [k] without entry as it is, as long as the
    cleaner does not have [k] in hand. *)
Lemma step_creates (pkg : package) (k : string) (w w' : world) (e : event) :
  entry_invariant k w →
  step pkg w e = Next w' →
  if creates k w e
  then locks (shared w) !! k = None ∧ is_Some (locks (shared w') !! k)
  else locks (shared w) !! k = None → locks (shared w') !! k = None.
Proof.
  intros [(Hc & Hu & Hf) Hs] H.
  destruct e as [g c|g| |pick]; simpl in *.
  - destruct (callers w !! g) as [[]|]; by simplify_eq.
  - destruct (callers w !! g) as [f|] eqn:Eg; simpl in H; [|done].
    destruct (caller_step (shared w) f) as [[s' f']| | |] eqn:E; simpl in H;
      simplify_eq.
    destruct f as [key|key q|key q|key|key q|key q|key c| |]; simpl in E |- *.
    + unfold LoadOrStore in E.
      destruct (decide (key = k)) as [->|Hne].
      * rewrite bool_decide_eq_true_2 by done. simpl.
        destruct (locks (shared w) !! k) as [a|] eqn:El; simplify_eq/=.
        -- done.
        -- split; [done|]. rewrite lookup_insert_eq. eauto.
      * rewrite bool_decide_eq_false_2 by done. simpl. intros Hn.
        destruct (locks (shared w) !! key) as [a|] eqn:El; simplify_eq/=; [done|].
        by rewrite lookup_insert_ne.
    + destruct (AddInt32 (heap (shared w)) q 1) as [[h c]|]; by simplify_eq/=.
    + destruct (mutex_Lock (heap (shared w)) q); by simplify_eq/=.
    + destruct (locks (shared w) !! key); by simplify_eq/=.
    + destruct (mutex_Unlock (heap (shared w)) q); by simplify_eq/=.
    + destruct (AddInt32 (heap (shared w)) q (-1)) as [[h c]|]; by simplify_eq/=.
    + destruct (c <=? 0); by simplify_eq/=.
    + destruct (close (closeCh (shared w))); by simplify_eq/=.
    + done.
  - destruct (cleaner w); by simplify_eq/=.
  - destruct (cleaner_step pkg pick (shared w) (tickerC w) (cleaner w))
      as [[[s' t'] f']| | |] eqn:E; simpl in H; simplify_eq.
    destruct (cleaner_step_other_key _ _ _ _ _ _ _ _ _ E Hc Hf) as (_ & _ & Hl').
    simpl. by rewrite Hl'.
Qed.

(** Along a schedule without [Unlock(k)], the entries created for [k] are one
    if [k] had none before and has one after, and none otherwise. *)
Lemma run_creations (pkg : package) (k : string) (es : list event) :
  ∀ w w', no_unlock k es → entry_invariant k w → run pkg w es = Next w' →
  creations pkg k w es =
    match locks (shared w) !! k, locks (shared w') !! k with
    | None, Some _ => 1%nat
    | _, _ => 0%nat
    end.
Proof.
  induction es as [|e es IH]; intros w w' Hn Hi H; simpl in H |- *.
  - simplify_eq. by destruct (locks (shared w') !! k).
  - apply Forall_cons in Hn as [He Hn].
    destruct (step pkg w e) as [w1| | |] eqn:E; simpl in H; try done.
    destruct (step_entry_invariant pkg k _ _ _ He Hi E) as [Hi1 Hm1].
    destruct (run_entry_invariant pkg k es _ _ Hn Hi1 H) as [_ Hm'].
    rewrite (IH _ _ Hn Hi1 H).
    pose proof (step_creates pkg k _ _ _ Hi E) as Hc.
    destruct (creates k w e).
    + destruct Hc as [Hnone [p Hp]]. rewrite Hnone, Hp.
      by rewrite (Hm' p Hp).
    + destruct (locks (shared w) !! k) as [p|] eqn:El.
      * by rewrite (Hm1 p eq_refl).
      * by rewrite (Hc eq_refl).
Qed.

(** As long as [Unlock(k)] is not called, a new key gets one entry.  For a
    key [k] with no entry that was never unlocked, in any schedule of any
    goroutines and the cleaner in which [Unlock(k)] is not called:
    - an entry of [k] once in the registry stays there for good;
    - every goroutine that has got an entry for [k] from line 59 has got the
      one in the registry;
    - the number of [LoadOrStore] calls that stored an entry for [k] is one
      if [k] has an entry at the end (so as soon as one caller is past line
      59) and zero otherwise.
    The registry being a map, [k] never has two entries in it at once. *)
Theorem one_entry_while_not_unlocked
    (pkg : package) (k : string) (w0 w1 w2 : world) (es1 es2 : list event) :
  first_time k w0 →
  no_unlock k (es1 ++ es2) →
  run pkg w0 es1 = Next w1 →
  run pkg w1 es2 = Next w2 →
  (∀ p q, locks (shared w2) !! k = Some p → locks (shared w2) !! k = Some q → p = q)
  ∧ (∀ p, locks (shared w1) !! k = Some p → locks (shared w2) !! k = Some p)
  ∧ (∀ g f p, callers w2 !! g = Some f → observes f k p →
              locks (shared w2) !! k = Some p)
  ∧ creations pkg k w0 (es1 ++ es2)
    = match locks (shared w2) !! k with Some _ => 1%nat | None => 0%nat end.
Proof.
  intros Hf Hn H1 H2.
  pose proof (first_time_invariant k _ Hf) as Hi0.
  assert (H12 : run pkg w0 (es1 ++ es2) = Next w2)
    by (by rewrite (run_app _ _ _ _ _ H1)).
  rewrite (run_creations pkg k _ _ _ Hn Hi0 H12).
  apply Forall_app in Hn as [Hn1 Hn2].
  destruct (run_entry_invariant pkg k es1 _ _ Hn1 Hi0 H1) as [Hi1 _].
  destruct (run_entry_invariant pkg k es2 _ _ Hn2 Hi1 H2) as [[_ Hs2] Hm].
  destruct Hf as (Hnone & _).
  split_and!.
  - congruence.
  - done.
  - done.
  - by rewrite Hnone.
Qed.

Lemma start_first_time (s : state) (k : string) :
  locks s !! k = None → k ∉ cleanKeys s → first_time k (start s).
Proof.
  intros Hl Hc. unfold first_time, never_unlocked. simpl.
  split_and!; try done; set_solver.
Qed.

Lemma one_entry_while_not_unlocked_example :
  ∃ w1 w2,
    run klocker (start (New [])) three_lockers_1 = Next w1
    ∧ run klocker w1 three_lockers_2 = Next w2
    ∧ locks (shared w1) !! "a"%string = Some 0%nat
    ∧ locks (shared w2) !! "a"%string = Some 0%nat
    ∧ callers w2 !! 2%nat = Some (Lock_68 "a" 0%nat)
    ∧ callers w2 !! 3%nat = Some (Lock_68 "a" 0%nat)
    ∧ creations klocker "a" (start (New [])) (three_lockers_1 ++ three_lockers_2)
      = 1%nat.
Proof.
  assert (H1 : ∃ w, run klocker (start (New [])) three_lockers_1 = Next w
                    ∧ locks (shared w) !! "a"%string = Some 0%nat).
  { eexists. split; vm_compute; reflexivity. }
  destruct H1 as (w1 & H1 & Hl1).
  assert (H2 : ∃ w, run klocker w1 three_lockers_2 = Next w
                    ∧ callers w !! 2%nat = Some (Lock_68 "a" 0%nat)
                    ∧ callers w !! 3%nat = Some (Lock_68 "a" 0%nat)).
  { vm_compute in H1. injection H1 as <-.
    eexists. split_and!; vm_compute; reflexivity. }
  destruct H2 as (w2 & H2 & Hg2 & Hg3).
  assert (Hf : first_time "a" (start (New []))).
  { apply start_first_time; [reflexivity|]. vm_compute. set_solver. }
  assert (Hn : no_unlock "a" (three_lockers_1 ++ three_lockers_2)).
  { unfold no_unlock. repeat constructor; intros g; discriminate. }
  destruct (one_entry_while_not_unlocked klocker "a" _ w1 w2 _ _ Hf Hn H1 H2)
    as (_ & Hm & Hs & Hc).
  exists w1, w2. split_and!; [done|done|done| |done|done|].
  - by apply Hm.
  - rewrite Hc. by rewrite (Hm _ Hl1).
Defined.

(** C2 at the failing schedule [first_calls_race], in both packages.  Three
    goroutines call [Lock("a")] while ["a"] has no entry.  Goroutine 1
    creates the entry and takes it; goroutine 2 gets the same entry at line
    59; goroutine 1 unlocks, which leaves the count at zero, and the cleaner
    deletes the entry that goroutine 2 has in hand; goroutine 3 then finds no
    entry and stores a second one.  Two entries have been created for ["a"],
    goroutines 2 and 3 have got different ones, and once both complete their
    calls both are in the critical region of ["a"]. *)
Theorem C2_two_entries_for_racing_first_calls (pkg : package) :
  ∃ w1 w2,
    locks (shared (start (New []))) !! "a"%string = None
    ∧ run pkg (start (New [])) (first_calls_race pkg) = Next w1
    ∧ creations pkg "a" (start (New [])) (first_calls_race pkg) = 2%nat
    ∧ callers w1 !! 2%nat = Some (Lock_66 "a" 0%nat)
    ∧ callers w1 !! 3%nat = Some (Lock_66 "a" 2%nat)
    ∧ locks (shared w1) !! "a"%string = Some 2%nat
    ∧ run pkg w1 first_calls_complete = Next w2
    ∧ callers w2 !! 2%nat = Some Return
    ∧ callers w2 !! 3%nat = Some Return
    ∧ in_critical w2 2 "a"
    ∧ in_critical w2 3 "a".
Proof.
  destruct pkg;
    (eexists; eexists; split; [reflexivity|];
     split; [vm_compute; reflexivity|];
     split_and!; vm_compute; reflexivity).
Qed.

(** ** Mutual exclusion while the cleaner does not run *)

(** A caller's statement that leaves the registry and the mutexes alone, and
    from which the goroutine owns no more than before, keeps the invariant. *)
Lemma lock_invariant_quiet (w : world) (g : nat) (f f' : frame) (s' : state) :
  lock_invariant w →
  callers w !! g = Some f →
  locks s' = locks (shared w) →
  length (heap s') = length (heap (shared w)) →
  (∀ p it, heap (shared w) !! p = Some it →
           ∃ it', heap s' !! p = Some it' ∧ mutex it' = mutex it) →
  (∀ k p, frame_entry f' = Some (k, p) → locks (shared w) !! k = Some p) →
  (∀ k, releasing f' k → releasing f k) →
  lock_invariant (World s' (tickerC w) (<[g := f']> (callers w)) (cleaner w) (holders w)).
Proof.
  intros [Hv Hi Hfr Hh Hu Hx] Hg Hl Hlen Hheap Hfe Hrel.
  assert (Hown : ∀ g' k,
    owner (World s' (tickerC w) (<[g := f']> (callers w)) (cleaner w) (holders w)) g' k →
    owner w g' k).
  { intros g' k [?|(f0 & Hf0 & Hr)]; [by left|]. right. simpl in Hf0.
    rewrite lookup_insert in Hf0. case_decide; simplify_eq.
    - exists f. split; [done|]. by apply Hrel.
    - by exists f0. }
  constructor; simpl.
  - intros k p. rewrite Hl, Hlen. apply Hv.
  - intros k1 k2 p. rewrite Hl. apply Hi.
  - intros g' f0 k p. rewrite Hl, lookup_insert. case_decide.
    + intros ? ?; simplify_eq. by apply Hfe.
    + apply Hfr.
  - intros g' k Ho. destruct (Hh g' k (Hown _ _ Ho)) as (p & it & Hp & Hit & Hm).
    destruct (Hheap p it Hit) as (it' & Hit' & Hm').
    exists p, it'. rewrite Hl. split_and!; congruence.
  - intros g1 g2 k H1 H2. eapply Hu; by apply Hown.
  - intros g' f0 k Hin. rewrite lookup_insert. case_decide.
    + intros ? Hr; simplify_eq. eapply Hx; [done|done|]. by apply Hrel.
    + by apply Hx.
Qed.

Lemma AddInt32_mutexes (h h' : list lockItem) (q : ptr) (d c : Z) :
  AddInt32 h q d = Some (h', c) →
  length h' = length h
  ∧ ∀ p it, h !! p = Some it → ∃ it', h' !! p = Some it' ∧ mutex it' = mutex it.
Proof.
  unfold AddInt32. destruct (h !! q) as [iq|] eqn:E; [|done].
  intros ?; simplify_eq. split; [by rewrite length_insert|].
  intros p it Hp. destruct (decide (p = q)) as [->|Hne].
  - eexists. split; [by eapply lookup_poke|]. simpl. congruence.
  - exists it. by rewrite list_lookup_insert_ne.
Qed.

Lemma same_mutexes (h : list lockItem) :
  ∀ p it, h !! p = Some it → ∃ it', h !! p = Some it' ∧ mutex it' = mutex it.
Proof. intros p it H. by exists it. Qed.

(** Line 59. *)
Lemma lock_invariant_Lock_59 (w : world) (g : nat) (key : string) (s' : state) (f' : frame) :
  lock_invariant w →
  callers w !! g = Some (Lock_59 key) →
  caller_step (shared w) (Lock_59 key) = Next (s', f') →
  lock_invariant (World s' (tickerC w) (<[g := f']> (callers w)) (cleaner w) (holders w)).
Proof.
  intros [Hv Hi Hfr Hh Hu Hx] Hg H. simpl in H. unfold LoadOrStore in H.
  assert (Hown : ∀ g' k,
    owner (World s' (tickerC w) (<[g := f']> (callers w)) (cleaner w) (holders w)) g' k →
    owner w g' k).
  { intros g' k [?|(f0 & Hf0 & Hr)]; [by left|]. right. simpl in Hf0.
    rewrite lookup_insert in Hf0. case_decide; simplify_eq.
    - destruct (locks (shared w) !! key); by simplify_eq.
    - by exists f0. }
  assert (Hmono : ∀ k p, locks (shared w) !! k = Some p → locks s' !! k = Some p).
  { intros k p Hk. destruct (locks (shared w) !! key) as [a|] eqn:E; simplify_eq/=.
    - done.
    - rewrite lookup_insert_ne; [done|]. congruence. }
  assert (Hheap : heap s' = heap (shared w) ++ [LockItem false 0]).
  { destruct (locks (shared w) !! key); by simplify_eq/=. }
  assert (Hnew : ∀ k p, locks s' !! k = Some p →
            locks (shared w) !! k = Some p
            ∨ (k = key ∧ p = length (heap (shared w)) ∧ locks (shared w) !! key = None)).
  { intros k p Hk. destruct (locks (shared w) !! key) as [a|] eqn:E; simplify_eq/=.
    - by left.
    - rewrite lookup_insert in Hk. case_decide; simplify_eq; auto. }
  constructor; simpl.
  - intros k p Hk. rewrite Hheap, length_app. simpl.
    destruct (Hnew k p Hk) as [Ho|(-> & -> & _)]; [|lia].
    apply Hv in Ho. lia.
  - intros k1 k2 p H1 H2.
    destruct (Hnew _ _ H1) as [Ho1|(-> & -> & Hn1)];
      destruct (Hnew _ _ H2) as [Ho2|(-> & Hp2 & Hn2)]; try done.
    + by eapply Hi.
    + subst p. apply Hv in Ho1. lia.
    + apply Hv in Ho2. lia.
  - intros g' f0 k p. rewrite lookup_insert. case_decide.
    + intros ? Hfe; simplify_eq.
      destruct (locks (shared w) !! key) as [a|] eqn:E; simplify_eq/=; [done|].
      apply lookup_insert_eq.
    + intros Hg' Hfe. apply Hmono. by eapply Hfr.
  - intros g' k Ho. destruct (Hh g' k (Hown _ _ Ho)) as (p & it & Hp & Hit & Hm).
    exists p, it. split_and!; [by apply Hmono| |done].
    rewrite Hheap, lookup_app_l; [done|]. by eapply lookup_lt_Some.
  - intros g1 g2 k H1 H2. eapply Hu; by apply Hown.
  - intros g' f0 k Hin. rewrite lookup_insert. case_decide.
    + intros ? Hr; simplify_eq.
      destruct (locks (shared w) !! key); by simplify_eq.
    + by apply Hx.
Qed.

(** Line 68: the mutex is taken. *)
Lemma lock_invariant_Lock_68 (w : world) (g : nat) (key : string) (q : ptr)
    (s' : state) (f' : frame) :
  lock_invariant w →
  callers w !! g = Some (Lock_68 key q) →
  caller_step (shared w) (Lock_68 key q) = Next (s', f') →
  lock_invariant (World s' (tickerC w) (<[g := f']> (callers w)) (cleaner w)
                        ({[(g, key)]} ∪ holders w)).
Proof.
  intros [Hv Hi Hfr Hh Hu Hx] Hg H. simpl in H. unfold mutex_Lock in H.
  destruct (heap (shared w) !! q) as [iq|] eqn:Eq; [|done].
  destruct (mutex iq) eqn:Em; [done|]. simpl in H. simplify_eq.
  pose proof (Hfr g _ key q Hg eq_refl) as Hkey.
  assert (Hfree : ∀ g', ¬ owner w g' key).
  { intros g' Ho. destruct (Hh _ _ Ho) as (p & it & Hp & Hit & Hm). congruence. }
  set (w' := World _ _ _ _ _).
  assert (Hown : ∀ g' k, owner w' g' k → owner w g' k ∨ (g' = g ∧ k = key)).
  { intros g' k [Hin|(f0 & Hf0 & Hr)].
    - simpl in Hin. apply elem_of_union in Hin as [Hin|Hin].
      + apply elem_of_singleton in Hin. simplify_eq. by right.
      + left. by left.
    - simpl in Hf0. rewrite lookup_insert in Hf0.
      case_decide; simplify_eq; [by simpl in Hr|].
      left. right. by exists f0. }
  constructor; simpl.
  - intros k p Hk. rewrite length_insert. by apply (Hv k).
  - done.
  - intros g' f0 k p. rewrite lookup_insert. case_decide.
    + intros ? ?; by simplify_eq.
    + apply Hfr.
  - intros g' k Ho. destruct (Hown _ _ Ho) as [Hold|[-> ->]].
    + destruct (Hh _ _ Hold) as (p & it & Hp & Hit & Hm).
      exists p, it. split_and!; try done.
      rewrite list_lookup_insert_ne; [done|]. intros <-. congruence.
    + exists q. eexists. split_and!; [done|by eapply lookup_poke|done].
  - intros g1 g2 k H1 H2.
    destruct (Hown _ _ H1) as [Ho1|[-> ->]]; destruct (Hown _ _ H2) as [Ho2|[-> Hk2]].
    + by eapply Hu.
    + subst k. by destruct (Hfree g1).
    + by destruct (Hfree g2).
    + done.
  - intros g' f0 k Hin. rewrite lookup_insert. case_decide.
    + intros ? Hr; by simplify_eq.
    + intros Hg'. apply elem_of_union in Hin as [Hin|Hin].
      * apply elem_of_singleton in Hin. by simplify_eq.
      * by eapply Hx.
Qed.

(** Line 77: the mutex is released. *)
Lemma lock_invariant_Unlock_77 (w : world) (g : nat) (key : string) (q : ptr)
    (s' : state) (f' : frame) :
  lock_invariant w →
  callers w !! g = Some (Unlock_77 key q) →
  caller_step (shared w) (Unlock_77 key q) = Next (s', f') →
  lock_invariant (World s' (tickerC w) (<[g := f']> (callers w)) (cleaner w) (holders w)).
Proof.
  intros [Hv Hi Hfr Hh Hu Hx] Hg H. simpl in H. unfold mutex_Unlock in H.
  destruct (heap (shared w) !! q) as [iq|] eqn:Eq; [|done].
  destruct (mutex iq) eqn:Em; [|done]. simpl in H. simplify_eq.
  pose proof (Hfr g _ key q Hg eq_refl) as Hkey.
  assert (Hme : owner w g key).
  { right. eexists. split; [done|]. done. }
  set (w' := World _ _ _ _ _).
  assert (Hown : ∀ g' k, owner w' g' k → owner w g' k ∧ k ≠ key).
  { intros g' k [Hin|(f0 & Hf0 & Hr)].
    - simpl in Hin. split; [by left|]. intros ->.
      assert (g' = g) by (eapply Hu; [by left|done]). subst g'.
      by eapply Hx.
    - simpl in Hf0. rewrite lookup_insert in Hf0.
      case_decide; simplify_eq; [by simpl in Hr|].
      split; [right; by exists f0|]. intros ->.
      assert (g' = g); [|done]. eapply Hu; [|done]. right. by exists f0. }
  constructor; simpl.
  - intros k p Hk. rewrite length_insert. by apply (Hv k).
  - done.
  - intros g' f0 k p. rewrite lookup_insert. case_decide.
    + intros ? ?; by simplify_eq/=.
    + apply Hfr.
  - intros g' k Ho. destruct (Hown _ _ Ho) as [Hold Hne].
    destruct (Hh _ _ Hold) as (p & it & Hp & Hit & Hm).
    exists p, it. split_and!; try done.
    rewrite list_lookup_insert_ne; [done|]. intros <-.
    apply Hne. by eapply Hi.
  - intros g1 g2 k H1 H2. eapply Hu; by apply Hown.
  - intros g' f0 k Hin. rewrite lookup_insert. case_decide.
    + intros ? Hr; by simplify_eq.
    + by apply Hx.
Qed.

Lemma step_lock_invariant (pkg : package) (w w' : world) (e : event) :
  lock_invariant w → allowed w e → step pkg w e = Next w' → lock_invariant w'.
Proof.
  intros Hinv Ha H. destruct e as [g c|g| |pick]; simpl in H, Ha; [| | |done].
  - assert (Hw : w' = invoke w g c).
    { destruct (callers w !! g) as [[]|]; by simplify_eq. }
    subst w'. clear H. destruct Hinv as [Hv Hi Hfr Hh Hu Hx].
    assert (Hown : ∀ g' k, owner (invoke w g c) g' k → owner w g' k).
    { intros g' k [Hin|(f0 & Hf0 & Hr)].
      - left. simpl in Hin. destruct c; set_solver.
      - simpl in Hf0. rewrite lookup_insert in Hf0. case_decide; simplify_eq.
        + destruct c as [key|key|]; simpl in Hr; try done. subst. by left.
        + right. by exists f0. }
    constructor; simpl; try done.
    + intros g' f0 k p. rewrite lookup_insert. case_decide.
      * intros ? ?; simplify_eq. by destruct c.
      * apply Hfr.
    + intros g' k Ho. by apply (Hh g' k), Hown.
    + intros g1 g2 k H1 H2. eapply Hu; by apply Hown.
    + intros g' f0 k Hin. rewrite lookup_insert. case_decide.
      * intros ? Hr; simplify_eq.
        destruct c as [key|key|]; simpl in Hr; try done. subst. set_solver.
      * apply Hx. destruct c; set_solver.
  - destruct (callers w !! g) as [f|] eqn:Eg; simpl in H; [|done].
    destruct (caller_step (shared w) f) as [[s' f']| | |] eqn:E; simpl in H;
      simplify_eq.
    destruct f as [key|key q|key q|key|key q|key q|key c| |].
    + by eapply lock_invariant_Lock_59.
    + simpl in E. destruct (AddInt32 (heap (shared w)) q 1) as [[h c]|] eqn:Ea;
        simplify_eq/=.
      destruct (AddInt32_mutexes _ _ _ _ _ Ea) as [Hlen Hm].
      eapply lock_invariant_quiet; eauto.
      intros k p ?; simplify_eq/=. by eapply (li_frames w Hinv g).
    + by eapply lock_invariant_Lock_68.
    + simpl in E. destruct (locks (shared w) !! key) as [q|] eqn:El; simplify_eq/=.
      * eapply lock_invariant_quiet; eauto using same_mutexes.
        intros k p ?; by simplify_eq/=.
      * eapply lock_invariant_quiet; eauto using same_mutexes; done.
    + by eapply lock_invariant_Unlock_77.
    + simpl in E. destruct (AddInt32 (heap (shared w)) q (-1)) as [[h c]|] eqn:Ea;
        simplify_eq/=.
      destruct (AddInt32_mutexes _ _ _ _ _ Ea) as [Hlen Hm].
      eapply lock_invariant_quiet; eauto; done.
    + simpl in E. destruct (c <=? 0); simplify_eq/=;
        eapply lock_invariant_quiet; eauto using same_mutexes; done.
    + simpl in E. destruct (close (closeCh (shared w))); simplify_eq/=.
      eapply lock_invariant_quiet; eauto using same_mutexes; done.
    + done.
  - destruct Hinv as [Hv Hi Hfr Hh Hu Hx].
    destruct (cleaner w); simplify_eq; by constructor.
Qed.

Lemma run_lock_invariant (pkg : package) (es : list event) :
  ∀ w w', lock_invariant w → allowed_run pkg w es → run pkg w es = Next w' →
          lock_invariant w'.
Proof.
  induction es as [|e es IH]; intros w w' Hinv Ha H; simpl in H, Ha.
  - by simplify_eq.
  - destruct Ha as [Ha Hrest].
    destruct (step pkg w e) as [w1| | |] eqn:E; simpl in H; try done.
    eapply IH; [|done|done]. by eapply step_lock_invariant.
Qed.

Lemma start_lock_invariant (opts : list (state → state)) :
  locks (New opts) = ∅ → lock_invariant (start (New opts)).
Proof.
  intros Hl.
  assert (Hno : ∀ g k, ¬ owner (start (New opts)) g k).
  { intros g k [Hin|(f & Hf & _)]; simpl in *.
    - set_solver.
    - by rewrite lookup_empty in Hf. }
  constructor; simpl.
  - intros k p. by rewrite Hl, lookup_empty.
  - intros k1 k2 p. by rewrite Hl, lookup_empty.
  - intros g f k p. by rewrite lookup_empty.
  - intros g k Ho. by destruct (Hno g k).
  - intros g1 g2 k Ho. by destruct (Hno g1 k).
  - intros g f k Hin. set_solver.
Qed.

(** Mutual exclusion holds as long as the cleaner does not run: from any
    state satisfying the invariant, under any schedule of callers that keep to
    the contract of [Unlock], two goroutines in the critical region of one key
    are one goroutine. *)
Lemma mutual_exclusion_without_cleaner
    (pkg : package) (w w' : world) (es : list event) (g1 g2 : nat) (k : string) :
  lock_invariant w →
  allowed_run pkg w es →
  run pkg w es = Next w' →
  in_critical w' g1 k → in_critical w' g2 k → g1 = g2.
Proof.
  intros Hinv Ha H H1 H2.
  pose proof (run_lock_invariant pkg es w w' Hinv Ha H) as Hinv'.
  eapply (li_unique w' Hinv'); by left.
Qed.

(** ** Mutual exclusion with the cleaner running *)

(** C1 at the failing schedule [race], in both packages.  Goroutine 1 gets the
    entry of ["a"] at line 59; the cleaner, finding its count at zero (and,
    in [klocker], its mutex free), deletes it; goroutine 1 then raises the
    count of the deleted entry and takes its mutex; goroutine 2 finds no
    entry, creates a second one and takes that mutex.  Both have returned
    from [Lock("a")] and neither has called [Unlock("a")]. *)
Theorem C1_two_holders_after_race (pkg : package) :
  ∃ w,
    run pkg (start (New [])) (race pkg) = Next w
    ∧ in_critical w 1 "a"
    ∧ in_critical w 2 "a"
    ∧ callers w !! 1%nat = Some Return
    ∧ callers w !! 2%nat = Some Return
    ∧ heap (shared w) !! 0%nat = Some (LockItem true 1)
    ∧ heap (shared w) !! 2%nat = Some (LockItem true 1)
    ∧ locks (shared w) !! "a"%string = Some 2%nat.
Proof.
  destruct pkg; (eexists; split; [vm_compute; reflexivity|]);
    split_and!; vm_compute; reflexivity.
Qed.

(** ** The scenarios of the repository's tests *)

(** [TestGroupLock_LockCleanupAfterUnlock]: after [Lock], [Unlock] and one
    pass the key has no entry. *)
Example LockCleanupAfterUnlock (pkg : package) :
  ∃ w, run pkg (start (New [WithCleanInterval second])) (test_LockCleanupAfterUnlock pkg)
       = Next w
       ∧ locks (shared w) !! "user1"%string = None
       ∧ cleanKeys (shared w) = ∅.
Proof.
  destruct pkg; (eexists; split; [vm_compute; reflexivity|]);
    split; vm_compute; reflexivity.
Qed.

(** [TestGroupLock_StopCleaner]: the key unlocked after [Stop] keeps its
    entry, now and under every later schedule. *)
Example StopCleaner (pkg : package) :
  ∃ w, run pkg (start (New [WithCleanInterval second])) test_StopCleaner = Next w
       ∧ locks (shared w) !! "user1"%string = Some 0%nat
       ∧ ∀ es w', run pkg w es = Next w' →
                  locks (shared w') !! "user1"%string = Some 0%nat.
Proof.
  assert (H : ∃ w, run pkg (start (New [WithCleanInterval second])) test_StopCleaner
                   = Next w
                   ∧ locks (shared w) !! "user1"%string = Some 0%nat
                   ∧ cleaner w = Exit).
  { destruct pkg; (eexists; split; [vm_compute; reflexivity|]);
      split; vm_compute; reflexivity. }
  destruct H as (w & Hr & Hl & Hx).
  exists w. split; [exact Hr|]. split; [exact Hl|].
  intros es w' H'.
  destruct (run_after_exit pkg es w w' Hx H') as [_ Hm].
  exact (Hm _ _ Hl).
Qed.

(** [TestGroupLock_MultipleLocksOnSameKey]: the second goroutine waits at
    line 68 while the first holds the key, goes on once it is released, and
    the entry is reclaimed after both have unlocked. *)
Example MultipleLocksOnSameKey (pkg : package) :
  ∃ w1 w2,
    run pkg (start (New [WithCleanInterval second])) test_MultipleLocks_1 = Next w1
    ∧ step pkg w1 (Run 2) = Blocked
    ∧ run pkg w1 (test_MultipleLocks_2 pkg) = Next w2
    ∧ locks (shared w2) !! "user1"%string = None.
Proof.
  destruct pkg; (eexists; eexists; split; [vm_compute; reflexivity|]);
    split_and!; vm_compute; reflexivity.
Qed.
